(** * Filter blocks of an SSTable: sstable/filter.go

    A shallow embedding of the per-block and whole-table filter writers and
    readers of [src/sstable/filter.go], and the properties of the blob layout
    [segments ++ offset-table ++ shift-byte] that the writer produces and the
    reader decodes.

    The file has three parts: the definitions (the code, the blob as the
    specification describes it, a concrete policy and sample runs), the
    lemmas, and the claims with their counterexamples and instances.

    Conventions of the embedding:
    - a Go [[]byte] is a [list byte]; the nil slice and the empty slice are
      both [[]];
    - Go integers are [Z]; conversions and unsigned arithmetic have their
      wrap-around written out ([uint64_of_int], [wrap64], [wrap32],
      [wrap_int]);
    - a Go [error] return is the [result] type, a run-time panic of a slice
      or index expression is the [Panic] outcome of the [go] type;
    - the [for] loop of [finishBlock] runs on fuel, and [finishBlock] provides
      enough of it ([finishBlock_returns]). *)

From Stdlib Require Import ZArith List Lia String Bool Sorted.
From coqutil Require Import Byte Word.LittleEndianList.
Import ListNotations.
Local Open Scope Z_scope.

(** ** Go values *)

Definition bytes := list byte.

(** [len(s)] as a Go [int]. *)
Definition len {A : Type} (s : list A) : Z := Z.of_nat (List.length s).

(** Conversion [uint64(x)] of an [int] [x]: the two's complement
    reinterpretation of a value of [-2^63 .. 2^63-1]. *)
Definition uint64_of_int (z : Z) : Z := if z <? 0 then z + 2 ^ 64 else z.

(** Results of [uint64] and [uint32] arithmetic and of [uint32(x)]. *)
Definition wrap64 (z : Z) : Z := z mod 2 ^ 64.
Definition wrap32 (z : Z) : Z := z mod 2 ^ 32.

(** Result of [int] arithmetic (64-bit, signed). *)
Definition wrap_int (z : Z) : Z := (z + 2 ^ 63) mod 2 ^ 64 - 2 ^ 63.

(** ** Outcomes *)

(** A Go function that returns [(T, error)]. *)
Inductive result (A : Type) : Type :=
| Ok (a : A)
| Err (e : string).
Arguments Ok {A} a.
Arguments Err {A} e.

(** A Go expression that may panic at run time. *)
Inductive go (A : Type) : Type :=
| Ret (a : A)
| Panic.
Arguments Ret {A} a.
Arguments Panic {A}.

Definition go_bind {A B : Type} (m : go A) (k : A -> go B) : go B :=
  match m with
  | Ret a => k a
  | Panic => Panic
  end.

Notation "x <- m ;; k" := (go_bind m (fun x => k))
  (at level 61, m at next level, right associativity).

(** [s[lo:hi]]. Go checks [0 <= lo <= hi <= cap(s)]; the embedding has no
    capacities and checks against [len(s)], which panics at least as often. *)
Definition slice (s : bytes) (lo hi : Z) : go bytes :=
  if (0 <=? lo) && (lo <=? hi) && (hi <=? len s)
  then Ret (firstn (Z.to_nat (hi - lo)) (skipn (Z.to_nat lo) s))
  else Panic.

(** [s[lo:]]. *)
Definition slice_from (s : bytes) (lo : Z) : go bytes := slice s lo (len s).

(** [s[i]]. *)
Definition index (s : bytes) (i : Z) : go byte :=
  if (0 <=? i) && (i <? len s)
  then match nth_error s (Z.to_nat i) with
       | Some b => Ret b
       | None => Panic
       end
  else Panic.

(** [binary.LittleEndian.Uint32(b)]: reads [b[3]] first (a bounds check),
    then combines [b[0] | b[1]<<8 | b[2]<<16 | b[3]<<24]. *)
Definition Uint32 (b : bytes) : go Z :=
  if 4 <=? len b then Ret (le_combine (firstn 4 b)) else Panic.

(** [binary.LittleEndian.PutUint32(b[:], x)] on a 4-byte array, as the four
    bytes written. *)
Definition PutUint32 (x : Z) : bytes := le_split 4 x.

(** ** The filter policy (package [db]) *)

(** [db.FilterType]. *)
Inductive FilterType : Type := BlockFilter | TableFilter.

(** Modelled from the spec: [db.FilterPolicy] and [db.FilterWriter] are
    declared in package [db] (section 6 of the specification, "FilterPolicy
    capability"); the source under verification only calls them.  A
    [db.FilterWriter] is a stateful accumulator: its state is a value of
    [FilterWriter], [AddKey] and [Finish] return the next state, and [Finish]
    also returns the buffer it was given with the finished filter added. *)
Class FilterPolicy : Type := {
  FilterWriter : Type;
  Name : string;
  NewWriter : FilterType -> FilterWriter;
  AddKey : FilterWriter -> bytes -> FilterWriter;
  Finish : FilterWriter -> bytes -> bytes * FilterWriter;
  MayContain : FilterType -> bytes -> bytes -> bool
}.

(** Modelled from the spec: [accumulator.finish(existingBytes)] "append[s] the
    finished filter for accumulated keys to existingBytes, return[s] the
    combined buffer". *)
Class FinishAppends (P : FilterPolicy) : Prop :=
  finish_appends : forall (w : FilterWriter) (buf : bytes),
    exists seg, fst (Finish w buf) = buf ++ seg.

(** Modelled from the spec: a policy has no false negatives.  [pendingKeys]
    observes the keys a writer has accumulated since it last finished, and
    [writerKind] the kind it was created for; the filter that [Finish] adds
    answers [true] for each pending key. *)
Class NoFalseNegatives (P : FilterPolicy) : Type := {
  pendingKeys : FilterWriter -> list bytes;
  writerKind : FilterWriter -> FilterType;
  writerKind_NewWriter : forall t, writerKind (NewWriter t) = t;
  writerKind_AddKey : forall w k, writerKind (AddKey w k) = writerKind w;
  writerKind_Finish : forall w buf, writerKind (snd (Finish w buf)) = writerKind w;
  pendingKeys_AddKey : forall w k k',
    k' = k \/ In k' (pendingKeys w) -> In k' (pendingKeys (AddKey w k));
  Finish_sound : forall w buf seg k,
    fst (Finish w buf) = buf ++ seg ->
    In k (pendingKeys w) ->
    MayContain (writerKind w) seg k = true
}.

Section Filter.

Context {P : FilterPolicy}.

(** *** blockFilterReader *)

(** [type blockFilterReader struct]; the [policy] field is the section's
    policy. *)
Record blockFilterReader : Type := {
  lastOffset : Z;   (* uint32 *)
  shift : Z         (* uint32 *)
}.

(** [newBlockFilterReader]; [None] is the nil pointer. *)
Definition newBlockFilterReader (data : bytes) : go (option blockFilterReader) :=
  if len data <? 5 then Ret None else
  tail <- slice_from data (len data - 5) ;;
  lastOffset <- Uint32 tail ;;
  if wrap64 lastOffset >? uint64_of_int (len data - 5) then Ret None else
  data' <- slice data 0 lastOffset ;;
  offsets <- slice data lastOffset (len data - 1) ;;
  sh <- index data (len data - 1) ;;
  let shift := byte.unsigned sh in
  if negb (Z.land (len offsets) 3 =? 0) then Ret None else
  Ret (Some {| lastOffset := lastOffset; shift := shift |}).

(** [blockFilterReader.mayContain]. *)
Definition mayContain (f : blockFilterReader) (data : bytes)
    (blockOffset : Z) (key : bytes) : go bool :=
  data' <- slice data 0 (lastOffset f) ;;
  offsets <- slice data (lastOffset f) (len data - 1) ;;
  let index := Z.shiftr blockOffset (shift f) in
  if index >=? uint64_of_int (Z.quot (len offsets) 4 - 1) then Ret true else
  lo <- slice_from offsets (wrap64 (wrap64 (4 * index) + 0)) ;;
  i <- Uint32 lo ;;
  hi <- slice_from offsets (wrap64 (wrap64 (4 * index) + 4)) ;;
  j <- Uint32 hi ;;
  if (i >=? j) || (wrap64 j >? uint64_of_int (len data')) then Ret true else
  seg <- slice data' i j ;;
  Ret (MayContain BlockFilter seg key).

(** *** blockFilterWriter *)

Definition filterBaseLog : Z := 11.

(** [type blockFilterWriter struct]; the [policy] field is the section's
    policy, [writer] is the state of the [db.FilterWriter]. *)
Record blockFilterWriter : Type := {
  writer : FilterWriter;
  count : Z;            (* int *)
  data : bytes;
  offsets : list Z      (* []uint32 *)
}.

Definition newBlockFilterWriter : blockFilterWriter :=
  {| writer := NewWriter BlockFilter; count := 0; data := []; offsets := [] |}.

Definition hasKeys (f : blockFilterWriter) : bool := negb (count f =? 0).

Definition addKey (f : blockFilterWriter) (key : bytes) : blockFilterWriter :=
  {| writer := AddKey (writer f) key;
     count := wrap_int (count f + 1);
     data := data f;
     offsets := offsets f |}.

Definition errTooLong : string := "pebble/table: filter data is too long".

Definition appendOffset (f : blockFilterWriter) : result blockFilterWriter :=
  let o := len (data f) in
  if uint64_of_int o >? 2 ^ 32 - 1 then Err errTooLong else
  Ok {| writer := writer f; count := count f; data := data f;
        offsets := offsets f ++ [wrap32 o] |}.

Definition emit (f : blockFilterWriter) : result blockFilterWriter :=
  match appendOffset f with
  | Err e => Err e
  | Ok f =>
      if negb (hasKeys f) then Ok f else
      let r := Finish (writer f) (data f) in
      Ok {| writer := snd r; count := 0; data := fst r; offsets := offsets f |}
  end.

(** The loop of [finishBlock]: [None] when the fuel runs out. *)
Fixpoint finishBlock_loop (fuel : nat) (i : Z) (f : blockFilterWriter)
    : option (result blockFilterWriter) :=
  match fuel with
  | O => None
  | S fuel =>
      if i >? uint64_of_int (len (offsets f)) then
        match emit f with
        | Err e => Some (Err e)
        | Ok f => finishBlock_loop fuel i f
        end
      else Some (Ok f)
  end.

(** [blockFilterWriter.finishBlock]; [blockOffset] is a [uint64]. *)
Definition finishBlock (f : blockFilterWriter) (blockOffset : Z)
    : option (result blockFilterWriter) :=
  let i := Z.shiftr blockOffset filterBaseLog in
  finishBlock_loop (S (Z.to_nat (i - len (offsets f)))) i f.

(** The [for range] loop of [finish] over the offsets. *)
Fixpoint appendOffsets (d : bytes) (xs : list Z) : bytes :=
  match xs with
  | [] => d
  | x :: xs => appendOffsets (d ++ PutUint32 x) xs
  end.

(** [blockFilterWriter.finish]. *)
Definition finish (f : blockFilterWriter) : result bytes :=
  match (if hasKeys f then emit f else Ok f) with
  | Err e => Err e
  | Ok f =>
      match appendOffset f with
      | Err e => Err e
      | Ok f => Ok (appendOffsets (data f) (offsets f) ++ [byte.of_Z filterBaseLog])
      end
  end.

Definition metaName : string := "filter." ++ Name.
Definition policyName : string := Name.

(** *** tableFilterReader and tableFilterWriter *)

Definition tableMayContain (data key : bytes) : bool :=
  MayContain TableFilter data key.

Record tableFilterWriter : Type := {
  twriter : FilterWriter;
  tcount : Z
}.

Definition newTableFilterWriter : tableFilterWriter :=
  {| twriter := NewWriter TableFilter; tcount := 0 |}.

Definition tableAddKey (f : tableFilterWriter) (key : bytes) : tableFilterWriter :=
  {| twriter := AddKey (twriter f) key; tcount := wrap_int (tcount f + 1) |}.

Definition tableFinishBlock (f : tableFilterWriter) (blockOffset : Z)
    : result tableFilterWriter := Ok f.

(** [tableFilterWriter.finish]; the nil result is [[]]. *)
Definition tableFinish (f : tableFilterWriter) : result bytes :=
  if tcount f =? 0 then Ok [] else Ok (fst (Finish (twriter f) [])).

Definition tableMetaName : string := "fullfilter." ++ Name.
Definition tablePolicyName : string := Name.

End Filter.

(** ** Bounds of the integer types *)

Definition MaxInt : Z := 2 ^ 63 - 1.
Definition MaxUint32 : Z := 2 ^ 32 - 1.
Definition MaxUint64 : Z := 2 ^ 64 - 1.

(** ** The blob as the specification describes it *)

(** The layout [segments ++ offset-table ++ shift-byte] of section 3 of the
    specification, read off a blob: the sentinel is the last 4-byte entry
    before the shift byte, the segments are the bytes before the position the
    sentinel names, the offset table lies between that position and the shift
    byte. *)
Definition blobSentinel (D : bytes) : Z :=
  le_combine (firstn 4 (skipn (Z.to_nat (len D - 5)) D)).

Definition blobShift (D : bytes) : Z :=
  byte.unsigned (nth (Z.to_nat (len D - 1)) D Byte.x00).

Definition blobSegments (D : bytes) : bytes :=
  firstn (Z.to_nat (blobSentinel D)) D.

Definition blobTable (D : bytes) : bytes :=
  firstn (Z.to_nat (len D - 1 - blobSentinel D)) (skipn (Z.to_nat (blobSentinel D)) D).

(** Entry [n] of an offset table: 4 bytes, little-endian. *)
Definition tableEntry (tbl : bytes) (n : Z) : Z :=
  le_combine (firstn 4 (skipn (Z.to_nat (4 * n)) tbl)).

(** The entries of an offset table, in order. *)
Fixpoint tableEntries (tbl : bytes) : list Z :=
  match tbl with
  | b0 :: b1 :: b2 :: b3 :: rest => le_combine [b0; b1; b2; b3] :: tableEntries rest
  | _ => []
  end.

(** A table of [N+1] entries bounds [N] segments. *)
Definition numSegments (tbl : bytes) : Z := len tbl / 4 - 1.

(** The three ways a blob is structurally invalid (section 4.2). *)
Definition blobInvalid (D : bytes) : Prop :=
  len D < 5 \/
  blobSentinel D > len D - 5 \/
  (len D - 1 - blobSentinel D) mod 4 <> 0.

Definition blobInvalidb (D : bytes) : bool :=
  (len D <? 5) || (blobSentinel D >? len D - 5) ||
  negb ((len D - 1 - blobSentinel D) mod 4 =? 0).

Section ReaderDefs.

Context {P : FilterPolicy}.

(** The query of section 4.2 on a blob [D] whose reader is [f]. *)
Definition mayContain_spec (f : blockFilterReader) (D : bytes)
    (blockOffset : Z) (key : bytes) : bool :=
  let segments := firstn (Z.to_nat (lastOffset f)) D in
  let tbl := firstn (Z.to_nat (len D - 1 - lastOffset f)) (skipn (Z.to_nat (lastOffset f)) D) in
  let index := Z.shiftr blockOffset (shift f) in
  if index >=? numSegments tbl then true else
  let low := tableEntry tbl index in
  let high := tableEntry tbl (index + 1) in
  if (low >=? high) || (high >? len segments) then true else
  MayContain BlockFilter
    (firstn (Z.to_nat (high - low)) (skipn (Z.to_nat low) segments)) key.

End ReaderDefs.

(** ** The blob as a serialised list of segments *)

(** The offset table as bytes: one [PutUint32] per entry. *)
Definition encodeOffsets (xs : list Z) : bytes := flat_map PutUint32 xs.

(** Where segment [n] starts in the concatenation of the segments. *)
Definition segOffset (segs : list bytes) (n : nat) : Z :=
  len (List.concat (firstn n segs)).

(** The starts of the segments: what the writer holds in [offsets]. *)
Definition segOffsets (segs : list bytes) : list Z :=
  map (segOffset segs) (seq 0 (List.length segs)).

(** The starts of the segments and the sentinel: [N+1] entries. *)
Definition boundaries (segs : list bytes) : list Z :=
  map (segOffset segs) (seq 0 (S (List.length segs))).

Definition encodeBlob (segs : list bytes) (sh : byte) : bytes :=
  List.concat segs ++ encodeOffsets (boundaries segs) ++ [sh].

(** What [finish] returns for segment data [d] and recorded offsets [offs]:
    the data, the offsets and the sentinel [len d], the shift byte. *)
Definition layout (d : bytes) (offs : list Z) (sh : byte) : bytes :=
  d ++ encodeOffsets (offs ++ [len d]) ++ [sh].

Section ReadBlobDefs.

Context {P : FilterPolicy}.

(** The reader of a serialised list of segments. *)
Definition blobReader (segs : list bytes) (sh : byte) : blockFilterReader :=
  {| lastOffset := len (List.concat segs); shift := byte.unsigned sh |}.

(** The query on a list of segments: segment [blockOffset >> shift], open
    when there is no such segment or when it is empty. *)
Definition segmentsMayContain (segs : list bytes) (sh : byte)
    (blockOffset : Z) (key : bytes) : bool :=
  let idx := Z.shiftr blockOffset (byte.unsigned sh) in
  if idx >=? len segs then true else
  let seg := nth (Z.to_nat idx) segs [] in
  if len seg =? 0 then true else MayContain BlockFilter seg key.

End ReadBlobDefs.

(** ** The writer *)

(** One call of the table writer on a per-block filter writer. *)
Inductive op : Type :=
| OpAddKey (key : bytes)
| OpFinishBlock (blockOffset : Z).

Section WriterDefs.

Context {P : FilterPolicy}.

(** [n] calls of [emit] in a row, stopping at the first error. *)
Fixpoint emits (n : nat) (f : blockFilterWriter) : result blockFilterWriter :=
  match n with
  | O => Ok f
  | S n =>
      match emit f with
      | Err e => Err e
      | Ok f => emits n f
      end
  end.

(** The first step of [finish]: a last segment when keys are pending. *)
Definition flush (f : blockFilterWriter) : result blockFilterWriter :=
  if hasKeys f then emit f else Ok f.


(** A sequence of calls, stopping at the first error. *)
Fixpoint run (ops : list op) (f : blockFilterWriter)
    : option (result blockFilterWriter) :=
  match ops with
  | [] => Some (Ok f)
  | OpAddKey key :: ops => run ops (addKey f key)
  | OpFinishBlock blockOffset :: ops =>
      match finishBlock f blockOffset with
      | Some (Ok f) => run ops f
      | r => r
      end
  end.

End WriterDefs.

(** ** A concrete policy *)

(** A policy to run the code on: the filter of a set of keys is the list of
    their first bytes ([x00] for the empty key), and a key may be in a filter
    that holds its first byte. *)
Definition keyTag (key : bytes) : byte := hd Byte.x00 key.

Definition FirstBytePolicy : FilterPolicy :=
  {| FilterWriter := FilterType * list bytes;
     Name := "firstbyte";
     NewWriter := fun t => (t, []);
     AddKey := fun w key => (fst w, key :: snd w);
     Finish := fun w buf => (buf ++ map keyTag (rev (snd w)), (fst w, []));
     MayContain := fun _ seg key => existsb (Byte.eqb (keyTag key)) seg |}.

Definition FirstBytePolicy_sound : NoFalseNegatives FirstBytePolicy.
Proof.
  refine {| pendingKeys := fun w : @FilterWriter FirstBytePolicy => snd w;
            writerKind := fun w : @FilterWriter FirstBytePolicy => fst w |}.
  - reflexivity.
  - reflexivity.
  - reflexivity.
  - intros w k k' [-> | H]; [left; reflexivity | right; exact H].
  - intros w buf seg k E Hin. cbn in E. apply app_inv_head in E. subst seg.
    cbn. apply existsb_exists. exists (keyTag k). split.
    + apply in_map, in_rev. rewrite rev_involutive. exact Hin.
    + apply Byte.byte_dec_lb. reflexivity.
Defined.

Definition key_a : bytes := [Byte.x61].
Definition key_b : bytes := [Byte.x62].
Definition key_c : bytes := [Byte.x63].

(** ** The writer holds a list of segments *)

Section RepresentationDefs.

Context {P : FilterPolicy}.

(** The state [f] holds the segments [segs]: its data is their
    concatenation and its offsets are their starts. *)
Definition rep (f : blockFilterWriter) (segs : list bytes) : Prop :=
  data f = List.concat segs /\ offsets f = segOffsets segs.

End RepresentationDefs.

(** ** Keys and the block offsets they are added under *)

(** The keys of a sequence of calls, each with the block offset it is added
    under: the offset of the latest [finishBlock] call before it, [cur] when
    there is none. *)
Fixpoint addedUnder (cur : Z) (ops : list op) : list (Z * bytes) :=
  match ops with
  | [] => []
  | OpAddKey key :: ops => (cur, key) :: addedUnder cur ops
  | OpFinishBlock blockOffset :: ops => addedUnder blockOffset ops
  end.

(** The block offsets of the [finishBlock] calls are [uint64] values that do
    not decrease, from [cur] on. *)
Fixpoint monotone (cur : Z) (ops : list op) : Prop :=
  match ops with
  | [] => True
  | OpAddKey _ :: ops => monotone cur ops
  | OpFinishBlock blockOffset :: ops =>
      cur <= blockOffset <= MaxUint64 /\ monotone blockOffset ops
  end.

(** A sequence of [(key, blockOffset)] pairs in the order of the
    specification: the key is added, then [finishBlock(blockOffset)] is
    called. *)
Definition feedPairs (pairs : list (bytes * Z)) : list op :=
  flat_map (fun p => [OpAddKey (fst p); OpFinishBlock (snd p)]) pairs.

Section NoFalseNegativeDefs.

Context {P : FilterPolicy} `{!FinishAppends P} {S : NoFalseNegatives P}.

(** The key of [x] is found in the emitted segment of its window, unless
    that segment is empty. *)
Definition good (segs : list bytes) (x : Z * bytes) : Prop :=
  let n := Z.to_nat (Z.shiftr (fst x) filterBaseLog) in
  (n < List.length segs)%nat /\
  (nth n segs [] <> [] -> MayContain BlockFilter (nth n segs []) (snd x) = true).

(** The key of [x] is pending, for the segment of its window, the next one. *)
Definition pending (f : blockFilterWriter) (segs : list bytes) (x : Z * bytes) : Prop :=
  Z.to_nat (Z.shiftr (fst x) filterBaseLog) = List.length segs /\
  In (snd x) (pendingKeys (writer f)) /\ count f <> 0.

Definition covered (f : blockFilterWriter) (segs : list bytes) (x : Z * bytes) : Prop :=
  good segs x \/ pending f segs x.

End NoFalseNegativeDefs.

(** ** Sample runs *)

(** Keys ["a"] and ["b"] in the block that starts at 0, key ["c"] in the
    block that starts at 2048: [finishBlock] is called with the offset at
    which the next block starts. *)
Definition sampleOps : list op :=
  [OpAddKey key_a; OpAddKey key_b; OpFinishBlock 2048; OpAddKey key_c; OpFinishBlock 4096].

(** The blob of [sampleOps] under [FirstBytePolicy]: segments ["ab"] and
    ["c"], offsets 0, 2 and the sentinel 3, shift 11. *)
Definition sampleBlob : bytes :=
  [Byte.x61; Byte.x62; Byte.x63;
   Byte.x00; Byte.x00; Byte.x00; Byte.x00;
   Byte.x02; Byte.x00; Byte.x00; Byte.x00;
   Byte.x03; Byte.x00; Byte.x00; Byte.x00;
   Byte.x0b].

Definition sampleReader : blockFilterReader := {| lastOffset := 3; shift := 11 |}.

(** The writer after [sampleOps]. *)
Definition sampleWriter : @blockFilterWriter FirstBytePolicy :=
  {| writer := (BlockFilter, []) : @FilterWriter FirstBytePolicy;
     count := 0;
     data := [Byte.x61; Byte.x62; Byte.x63];
     offsets := [0; 2] |}.

(** The pairs [("a", 2048)] and [("c", 4096)] in the order of the
    specification, and their blob under [FirstBytePolicy]: segments ["a"] and
    ["c"], offsets 0, 1 and the sentinel 2, shift 11. *)
Definition specOrderPairs : list (bytes * Z) := [(key_a, 2048); (key_c, 4096)].

Definition specOrderBlob : bytes :=
  [Byte.x61; Byte.x63;
   Byte.x00; Byte.x00; Byte.x00; Byte.x00;
   Byte.x01; Byte.x00; Byte.x00; Byte.x00;
   Byte.x02; Byte.x00; Byte.x00; Byte.x00;
   Byte.x0b].

Definition specOrderReader : blockFilterReader := {| lastOffset := 2; shift := 11 |}.

(** ** Whole runs of the two writers *)

(** The keys of a sequence of calls, in the order they are added. *)
Definition keysOf (ops : list op) : list bytes :=
  flat_map (fun o => match o with
                     | OpAddKey key => [key]
                     | OpFinishBlock _ => []
                     end) ops.

(** The number of emitted segments and the number of pending keys after a
    sequence of calls, from [nseg] segments and [pend] pending keys: a key
    is one more pending key, a [finishBlock] whose window index is beyond
    the emitted segments emits up to that index and leaves no key pending. *)
Fixpoint summary (nseg pend : Z) (ops : list op) : Z * Z :=
  match ops with
  | [] => (nseg, pend)
  | OpAddKey _ :: ops => summary nseg (pend + 1) ops
  | OpFinishBlock blockOffset :: ops =>
      if Z.shiftr blockOffset filterBaseLog >? nseg
      then summary (Z.shiftr blockOffset filterBaseLog) 0 ops
      else summary nseg pend ops
  end.

Section RunDefs.

Context {P : FilterPolicy}.

(** A sequence of calls on a whole-table writer, stopping at the first
    error. *)
Fixpoint tableRun (ops : list op) (f : tableFilterWriter) : result tableFilterWriter :=
  match ops with
  | [] => Ok f
  | OpAddKey key :: ops => tableRun ops (tableAddKey f key)
  | OpFinishBlock blockOffset :: ops =>
      match tableFinishBlock f blockOffset with
      | Ok f => tableRun ops f
      | Err e => Err e
      end
  end.

(** The state [f'] extends the state [f]: its data and its offsets are
    those of [f] with more at the end, and the new offsets lie between the
    two lengths of the data. *)
Definition extends (f f' : blockFilterWriter) : Prop :=
  exists d o,
    data f' = data f ++ d /\
    offsets f' = offsets f ++ o /\
    Forall (fun x => len (data f) <= x <= len (data f')) o.

End RunDefs.

(** * Lemmas *)

(** ** Arithmetic of the conversions *)

Lemma len_nonneg {A : Type} (s : list A) : 0 <= len s.
Proof. unfold len. lia. Qed.

Lemma len_app {A : Type} (s t : list A) : len (s ++ t) = len s + len t.
Proof. unfold len. rewrite length_app. lia. Qed.

Lemma len_nil {A : Type} : len (@nil A) = 0.
Proof. reflexivity. Qed.

Lemma len_cons {A : Type} (a : A) (s : list A) : len (a :: s) = 1 + len s.
Proof. unfold len. cbn [List.length]. lia. Qed.

Lemma len_firstn {A : Type} (n : Z) (s : list A) :
  0 <= n <= len s -> len (firstn (Z.to_nat n) s) = n.
Proof. unfold len. intros H. rewrite length_firstn. lia. Qed.

Lemma len_skipn {A : Type} (n : Z) (s : list A) :
  0 <= n <= len s -> len (skipn (Z.to_nat n) s) = len s - n.
Proof. unfold len. intros H. rewrite length_skipn. lia. Qed.

Lemma uint64_of_int_nonneg (z : Z) : 0 <= z -> uint64_of_int z = z.
Proof.
  intros H. unfold uint64_of_int.
  destruct (Z.ltb_spec z 0); [lia | reflexivity].
Qed.

Lemma uint64_of_int_len {A : Type} (s : list A) : uint64_of_int (len s) = len s.
Proof. apply uint64_of_int_nonneg, len_nonneg. Qed.

Lemma wrap64_small (z : Z) : 0 <= z <= MaxUint64 -> wrap64 z = z.
Proof. unfold wrap64, MaxUint64. intros H. apply Z.mod_small. lia. Qed.

Lemma wrap32_small (z : Z) : 0 <= z <= MaxUint32 -> wrap32 z = z.
Proof. unfold wrap32, MaxUint32. intros H. apply Z.mod_small. lia. Qed.

Lemma wrap_int_small (z : Z) : - 2 ^ 63 <= z <= MaxInt -> wrap_int z = z.
Proof.
  unfold wrap_int, MaxInt. intros H.
  rewrite Z.mod_small by lia. lia.
Qed.

Lemma land_3_mod_4 (z : Z) : Z.land z 3 = z mod 4.
Proof. change 3 with (Z.ones 2). rewrite Z.land_ones by lia. reflexivity. Qed.

Lemma shiftr_nonneg_le (b s : Z) : 0 <= b -> 0 <= s -> 0 <= Z.shiftr b s <= b.
Proof.
  intros Hb Hs. rewrite Z.shiftr_div_pow2 by lia.
  assert (Hp : 0 < 2 ^ s) by (apply Z.pow_pos_nonneg; lia). split.
  - apply Z.div_pos; lia.
  - apply Z.div_le_upper_bound; [lia | nia].
Qed.

(** ** Slicing *)

Lemma slice_Ret (s : bytes) (lo hi : Z) :
  0 <= lo <= hi -> hi <= len s ->
  slice s lo hi = Ret (firstn (Z.to_nat (hi - lo)) (skipn (Z.to_nat lo) s)).
Proof.
  intros H1 H2. unfold slice.
  destruct (Z.leb_spec 0 lo); [| lia].
  destruct (Z.leb_spec lo hi); [| lia].
  destruct (Z.leb_spec hi (len s)); [| lia].
  reflexivity.
Qed.

Lemma slice_inv (s : bytes) (lo hi : Z) (r : bytes) :
  slice s lo hi = Ret r ->
  0 <= lo <= hi /\ hi <= len s /\
  r = firstn (Z.to_nat (hi - lo)) (skipn (Z.to_nat lo) s).
Proof.
  unfold slice.
  destruct (Z.leb_spec 0 lo); cbn [andb]; [| discriminate].
  destruct (Z.leb_spec lo hi); cbn [andb]; [| discriminate].
  destruct (Z.leb_spec hi (len s)); [| discriminate].
  intros [= <-]. repeat split; lia.
Qed.

Lemma slice_Panic (s : bytes) (lo hi : Z) :
  slice s lo hi = Panic <-> ~ (0 <= lo <= hi /\ hi <= len s).
Proof.
  split.
  - intros H [H1 H2]. rewrite slice_Ret in H by lia. discriminate.
  - intros H. unfold slice.
    destruct (Z.leb_spec 0 lo); cbn [andb]; [| reflexivity].
    destruct (Z.leb_spec lo hi); cbn [andb]; [| reflexivity].
    destruct (Z.leb_spec hi (len s)); [lia | reflexivity].
Qed.

Lemma len_slice (s : bytes) (lo hi : Z) :
  0 <= lo <= hi -> hi <= len s ->
  len (firstn (Z.to_nat (hi - lo)) (skipn (Z.to_nat lo) s)) = hi - lo.
Proof.
  intros H1 H2. rewrite len_firstn; [reflexivity |].
  rewrite len_skipn by lia. lia.
Qed.

Lemma slice_from_Ret (s : bytes) (lo : Z) :
  0 <= lo <= len s -> slice_from s lo = Ret (skipn (Z.to_nat lo) s).
Proof.
  intros H. unfold slice_from. rewrite slice_Ret by lia. f_equal.
  apply firstn_all2. pose proof (len_skipn lo s H) as E. unfold len in *. lia.
Qed.

Lemma index_Ret (s : bytes) (i : Z) :
  0 <= i < len s -> exists b, index s i = Ret b /\ nth_error s (Z.to_nat i) = Some b.
Proof.
  intros H. unfold index.
  destruct (Z.leb_spec 0 i); [| lia].
  destruct (Z.ltb_spec i (len s)); [| lia]. cbn [andb].
  destruct (nth_error s (Z.to_nat i)) as [b |] eqn:E.
  - exists b. split; reflexivity.
  - apply nth_error_None in E. unfold len in *. lia.
Qed.

Lemma Uint32_Ret (b : bytes) :
  4 <= len b -> Uint32 b = Ret (le_combine (firstn 4 b)).
Proof. intros H. unfold Uint32. destruct (Z.leb_spec 4 (len b)); [reflexivity | lia]. Qed.

Lemma Uint32_range (b : bytes) (v : Z) : Uint32 b = Ret v -> 0 <= v <= MaxUint32.
Proof.
  unfold Uint32. destruct (Z.leb_spec 4 (len b)) as [H |]; [| discriminate].
  intros Hv. assert (v = le_combine (firstn 4 b)) as -> by congruence. clear Hv.
  pose proof (le_combine_bound (firstn 4 b)) as B.
  assert (E : List.length (firstn 4 b) = 4%nat)
    by (rewrite length_firstn; unfold len in H; lia).
  rewrite E in B. unfold MaxUint32.
  replace (8 * Z.of_nat 4) with 32 in B by reflexivity.
  lia.
Qed.

Lemma blobInvalidb_spec (D : bytes) : blobInvalidb D = true <-> blobInvalid D.
Proof.
  unfold blobInvalidb, blobInvalid.
  rewrite !orb_true_iff, negb_true_iff, Z.ltb_lt, Z.gtb_ltb, Z.ltb_lt, Z.eqb_neq.
  intuition lia.
Qed.

Lemma blobSentinel_range (D : bytes) : 0 <= blobSentinel D <= MaxUint32.
Proof.
  unfold blobSentinel.
  set (t := firstn 4 _).
  pose proof (le_combine_bound t) as B.
  assert (E : (List.length t <= 4)%nat) by (subst t; rewrite length_firstn; lia).
  assert (2 ^ (8 * Z.of_nat (List.length t)) <= 2 ^ 32)
    by (apply Z.pow_le_mono_r; lia).
  unfold MaxUint32. lia.
Qed.

(** ** The reader *)

Section Reader.

Context {P : FilterPolicy}.

(** What [newBlockFilterReader] computes, with every slice in range. *)
Lemma newBlockFilterReader_eq (D : bytes) :
  newBlockFilterReader D =
  Ret (if blobInvalidb D then None
       else Some {| lastOffset := blobSentinel D; shift := blobShift D |}).
Proof.
  unfold newBlockFilterReader, blobInvalidb.
  destruct (Z.ltb_spec (len D) 5) as [Hlen | Hlen]; [reflexivity |].
  cbn [orb].
  rewrite slice_from_Ret by lia. cbn [go_bind].
  rewrite Uint32_Ret by (rewrite len_skipn by lia; lia). cbn [go_bind].
  fold (blobSentinel D).
  pose proof (blobSentinel_range D) as HS. unfold MaxUint32 in HS.
  rewrite wrap64_small by (unfold MaxUint64; lia).
  rewrite uint64_of_int_nonneg by lia.
  destruct (Z.gtb_spec (blobSentinel D) (len D - 5)) as [Hs | Hs]; [reflexivity |].
  cbn [orb].
  rewrite slice_Ret by lia. cbn [go_bind].
  rewrite slice_Ret by lia. cbn [go_bind].
  destruct (index_Ret D (len D - 1)) as (b & Hb & Hn); [lia |].
  rewrite Hb. cbn [go_bind].
  rewrite len_slice by lia. rewrite land_3_mod_4.
  destruct (Z.eqb_spec ((len D - 1 - blobSentinel D) mod 4) 0); cbn [negb]; [| reflexivity].
  unfold blobShift. erewrite nth_error_nth by exact Hn. reflexivity.
Qed.

Lemma newBlockFilterReader_Some (D : bytes) (f : blockFilterReader) :
  newBlockFilterReader D = Ret (Some f) ->
  5 <= len D /\
  lastOffset f = blobSentinel D /\ shift f = blobShift D /\
  0 <= lastOffset f <= len D - 5 /\
  (len D - 1 - lastOffset f) mod 4 = 0.
Proof.
  rewrite newBlockFilterReader_eq.
  destruct (blobInvalidb D) eqn:E; [discriminate |].
  intros [= <-]. cbn [lastOffset shift].
  pose proof (blobSentinel_range D).
  unfold blobInvalidb in E.
  rewrite !orb_false_iff, negb_false_iff, Z.ltb_ge, Z.gtb_ltb, Z.ltb_ge, Z.eqb_eq in E.
  repeat split; lia.
Qed.

Lemma blobShift_range (D : bytes) : 0 <= blobShift D <= 255.
Proof.
  unfold blobShift. pose proof (byte.unsigned_range (nth (Z.to_nat (len D - 1)) D Byte.x00)).
  lia.
Qed.

Lemma tableEntry_range (tbl : bytes) (n : Z) : 0 <= tableEntry tbl n <= MaxUint32.
Proof.
  unfold tableEntry.
  set (t := firstn 4 _).
  pose proof (le_combine_bound t) as B.
  assert (E : (List.length t <= 4)%nat) by (subst t; rewrite length_firstn; lia).
  assert (2 ^ (8 * Z.of_nat (List.length t)) <= 2 ^ 32)
    by (apply Z.pow_le_mono_r; lia).
  unfold MaxUint32. lia.
Qed.

(** [mayContain] on a blob that passed the checks of the constructor: no
    slice or index expression is out of range, and the answer is the one of
    [mayContain_spec]. *)
Lemma mayContain_eq (f : blockFilterReader) (D : bytes) (blockOffset : Z) (key : bytes) :
  0 <= lastOffset f <= len D - 5 ->
  0 <= shift f ->
  len D <= MaxInt ->
  0 <= blockOffset <= MaxUint64 ->
  mayContain f D blockOffset key = Ret (mayContain_spec f D blockOffset key).
Proof.
  intros HL Hsh HD HB. unfold mayContain, mayContain_spec.
  rewrite slice_Ret by lia. cbn [go_bind].
  rewrite slice_Ret by lia. cbn [go_bind].
  rewrite Z.sub_0_r. change (Z.to_nat 0) with 0%nat. cbn [skipn].
  set (segs := firstn (Z.to_nat (lastOffset f)) D).
  set (tbl := firstn (Z.to_nat (len D - 1 - lastOffset f)) _).
  assert (Hsegs : len segs = lastOffset f) by (subst segs; apply len_firstn; lia).
  assert (Htbl : len tbl = len D - 1 - lastOffset f) by (subst tbl; apply len_slice; lia).
  pose proof (shiftr_nonneg_le blockOffset (shift f) (proj1 HB) Hsh) as Hidx.
  set (idx := Z.shiftr blockOffset (shift f)) in *.
  unfold numSegments.
  rewrite Z.quot_div_nonneg by lia.
  assert (Hq : 0 <= len tbl / 4 - 1 /\ 4 * (len tbl / 4) <= len tbl).
  { pose proof (Z.div_mod (len tbl) 4 ltac:(lia)).
    pose proof (Z.mod_pos_bound (len tbl) 4 ltac:(lia)). lia. }
  rewrite uint64_of_int_nonneg by lia.
  rewrite !Z.geb_leb.
  destruct (Z.leb_spec (len tbl / 4 - 1) idx) as [Hi | Hi]; [reflexivity |].
  unfold MaxInt, MaxUint64 in *.
  rewrite (wrap64_small (4 * idx)) by (unfold MaxUint64; lia).
  rewrite !wrap64_small by (unfold MaxUint64; lia).
  rewrite Z.add_0_r.
  rewrite slice_from_Ret by lia. cbn [go_bind].
  rewrite Uint32_Ret by (rewrite len_skipn by lia; lia). cbn [go_bind].
  rewrite slice_from_Ret by lia. cbn [go_bind].
  rewrite Uint32_Ret by (rewrite len_skipn by lia; lia). cbn [go_bind].
  replace (4 * idx + 4) with (4 * (idx + 1)) by lia.
  fold (tableEntry tbl idx). fold (tableEntry tbl (idx + 1)).
  pose proof (tableEntry_range tbl idx) as Ri.
  pose proof (tableEntry_range tbl (idx + 1)) as Rj.
  unfold MaxUint32 in *.
  rewrite wrap64_small by (unfold MaxUint64; lia).
  rewrite uint64_of_int_len.
  cbv zeta. rewrite !Z.gtb_ltb, !Z.geb_leb.
  destruct (Z.leb_spec (tableEntry tbl (idx + 1)) (tableEntry tbl idx)) as [Hij | Hij];
    cbn [orb]; [reflexivity |].
  destruct (Z.ltb_spec (len segs) (tableEntry tbl (idx + 1))) as [Hj | Hj];
    [reflexivity |].
  rewrite slice_Ret by lia. reflexivity.
Qed.

End Reader.

(** ** The offset table and the segments *)

Lemma appendOffsets_eq (d : bytes) (xs : list Z) :
  appendOffsets d xs = d ++ encodeOffsets xs.
Proof.
  revert d. induction xs as [| x xs IH]; intros d; cbn [appendOffsets].
  - unfold encodeOffsets. cbn. rewrite app_nil_r. reflexivity.
  - rewrite IH. unfold encodeOffsets. cbn [flat_map]. rewrite app_assoc. reflexivity.
Qed.

Lemma len_PutUint32 (x : Z) : len (PutUint32 x) = 4.
Proof. reflexivity. Qed.

Lemma len_encodeOffsets (xs : list Z) : len (encodeOffsets xs) = 4 * len xs.
Proof.
  induction xs as [| x xs IH]; [reflexivity |].
  unfold encodeOffsets in *. cbn [flat_map].
  rewrite len_app, IH, len_PutUint32, len_cons. lia.
Qed.

Lemma encodeOffsets_app (xs ys : list Z) :
  encodeOffsets (xs ++ ys) = encodeOffsets xs ++ encodeOffsets ys.
Proof. unfold encodeOffsets. apply flat_map_app. Qed.

Lemma le_combine_PutUint32 (x : Z) :
  0 <= x <= MaxUint32 -> le_combine (PutUint32 x) = x.
Proof.
  intros H. unfold PutUint32. rewrite le_combine_split.
  apply Z.mod_small. unfold MaxUint32 in H.
  replace (Z.of_nat 4 * 8) with 32 by reflexivity. lia.
Qed.

Lemma firstn_len_app {A : Type} (n : Z) (l r : list A) :
  n = len l -> firstn (Z.to_nat n) (l ++ r) = l.
Proof.
  intros ->. unfold len. rewrite Nat2Z.id.
  rewrite firstn_app, Nat.sub_diag, firstn_all. cbn. apply app_nil_r.
Qed.

Lemma skipn_len_app {A : Type} (n : Z) (l r : list A) :
  n = len l -> skipn (Z.to_nat n) (l ++ r) = r.
Proof.
  intros ->. unfold len. rewrite Nat2Z.id.
  rewrite skipn_app, Nat.sub_diag, skipn_all. reflexivity.
Qed.

Lemma tableEntry_encodeOffsets (xs : list Z) (n : nat) :
  Forall (fun x => 0 <= x <= MaxUint32) xs ->
  (n < List.length xs)%nat ->
  tableEntry (encodeOffsets xs) (Z.of_nat n) = nth n xs 0.
Proof.
  intros HF. revert n. induction HF as [| x xs Hx HF IH]; intros n Hn.
  - cbn in Hn. lia.
  - unfold tableEntry, encodeOffsets in *. cbn [flat_map].
    destruct n as [| n].
    + cbn [Z.of_nat Z.mul Z.to_nat skipn nth].
      rewrite (firstn_len_app 4) by reflexivity.
      apply le_combine_PutUint32, Hx.
    + cbn [nth]. rewrite <- IH by (cbn in Hn; lia).
      replace (Z.to_nat (4 * Z.of_nat (S n)))
        with (Z.to_nat (4 * Z.of_nat n) + Z.to_nat 4)%nat by lia.
      rewrite <- skipn_skipn.
      rewrite (skipn_len_app 4) by reflexivity. reflexivity.
Qed.

Lemma tableEntries_PutUint32 (x : Z) (rest : bytes) :
  tableEntries (PutUint32 x ++ rest) = le_combine (PutUint32 x) :: tableEntries rest.
Proof. reflexivity. Qed.

Lemma tableEntries_encodeOffsets (xs : list Z) :
  Forall (fun x => 0 <= x <= MaxUint32) xs ->
  tableEntries (encodeOffsets xs) = xs.
Proof.
  induction 1 as [| x xs Hx HF IH]; [reflexivity |].
  unfold encodeOffsets in *. cbn [flat_map].
  rewrite tableEntries_PutUint32, IH, le_combine_PutUint32 by exact Hx.
  reflexivity.
Qed.

(** *** Segment offsets *)

Lemma segOffset_0 (segs : list bytes) : segOffset segs 0 = 0.
Proof. reflexivity. Qed.

Lemma segOffset_all (segs : list bytes) :
  segOffset segs (List.length segs) = len (List.concat segs).
Proof. unfold segOffset. rewrite firstn_all. reflexivity. Qed.

Lemma firstn_S_nth {A : Type} (d : A) (l : list A) (n : nat) :
  (n < List.length l)%nat -> firstn (S n) l = firstn n l ++ [nth n l d].
Proof.
  revert n. induction l as [| a l IH]; intros n Hn; cbn in Hn; [lia |].
  destruct n as [| n]; [reflexivity |].
  cbn [firstn nth app]. rewrite <- IH by lia. reflexivity.
Qed.

Lemma segOffset_S (segs : list bytes) (n : nat) :
  (n < List.length segs)%nat ->
  segOffset segs (S n) = segOffset segs n + len (nth n segs []).
Proof.
  intros Hn. cbv delta [segOffset] beta.
  rewrite (firstn_S_nth (A := bytes) [] segs n Hn), concat_app, len_app.
  cbn [List.concat]. rewrite app_nil_r. reflexivity.
Qed.

Lemma segOffset_mono (segs : list bytes) (n m : nat) :
  (n <= m)%nat -> segOffset segs n <= segOffset segs m.
Proof.
  induction 1 as [| m Hle IH]; [lia |].
  destruct (Nat.lt_ge_cases m (List.length segs)) as [Hm | Hm].
  - rewrite segOffset_S by exact Hm. pose proof (len_nonneg (nth m segs [])). lia.
  - assert (E : firstn (S m) segs = firstn m segs)
      by (rewrite !firstn_all2 by lia; reflexivity).
    cbv delta [segOffset] beta in *. rewrite E. exact IH.
Qed.

Lemma segOffset_le_total (segs : list bytes) (n : nat) :
  0 <= segOffset segs n <= len (List.concat segs).
Proof.
  split; [apply len_nonneg |].
  destruct (Nat.le_gt_cases n (List.length segs)) as [Hn | Hn].
  - rewrite <- segOffset_all. apply segOffset_mono, Hn.
  - unfold segOffset. rewrite firstn_all2 by lia. lia.
Qed.

Lemma segOffset_snoc (segs : list bytes) (s : bytes) (n : nat) :
  (n <= List.length segs)%nat -> segOffset (segs ++ [s]) n = segOffset segs n.
Proof.
  intros Hn. unfold segOffset. rewrite firstn_app.
  replace (n - List.length segs)%nat with 0%nat by lia.
  cbn [firstn]. rewrite app_nil_r. reflexivity.
Qed.

Lemma segOffsets_snoc (segs : list bytes) (s : bytes) :
  segOffsets (segs ++ [s]) = segOffsets segs ++ [len (List.concat segs)].
Proof.
  unfold segOffsets. rewrite length_app. cbn [List.length].
  rewrite Nat.add_1_r, seq_S, map_app. cbn [map Nat.add].
  rewrite segOffset_snoc by lia. rewrite segOffset_all. f_equal.
  apply map_ext_in. intros n Hn. apply in_seq in Hn.
  apply segOffset_snoc. lia.
Qed.

Lemma boundaries_eq (segs : list bytes) :
  boundaries segs = segOffsets segs ++ [len (List.concat segs)].
Proof.
  unfold boundaries, segOffsets. rewrite seq_S, map_app. cbn [map Nat.add].
  rewrite segOffset_all. reflexivity.
Qed.

Lemma length_boundaries (segs : list bytes) :
  List.length (boundaries segs) = S (List.length segs).
Proof. unfold boundaries. rewrite length_map, length_seq. reflexivity. Qed.

Lemma nth_boundaries (segs : list bytes) (n : nat) :
  (n <= List.length segs)%nat -> nth n (boundaries segs) 0 = segOffset segs n.
Proof.
  intros Hn. unfold boundaries.
  rewrite (nth_indep _ 0 (segOffset segs 0)) by (rewrite length_map, length_seq; lia).
  rewrite map_nth, seq_nth by lia. reflexivity.
Qed.

Lemma boundaries_range (segs : list bytes) :
  len (List.concat segs) <= MaxUint32 ->
  Forall (fun x => 0 <= x <= MaxUint32) (boundaries segs).
Proof.
  intros H. unfold boundaries. apply Forall_map, Forall_forall. intros n _.
  pose proof (segOffset_le_total segs n). lia.
Qed.

(** Segment [n] is the slice of the data between its two boundaries. *)
Lemma segment_slice (segs : list bytes) (n : nat) :
  (n < List.length segs)%nat ->
  firstn (Z.to_nat (segOffset segs (S n) - segOffset segs n))
    (skipn (Z.to_nat (segOffset segs n)) (List.concat segs)) = nth n segs [].
Proof.
  intros Hn. rewrite segOffset_S by exact Hn.
  assert (E : List.concat segs =
              List.concat (firstn n segs) ++ nth n segs [] ++ List.concat (skipn (S n) segs)).
  { rewrite <- (firstn_skipn (S n) segs) at 1.
    rewrite (firstn_S_nth (A := bytes) [] segs n Hn), !concat_app. cbn [List.concat].
    rewrite app_nil_r, <- app_assoc. reflexivity. }
  rewrite E.
  rewrite skipn_len_app by reflexivity.
  apply firstn_len_app. lia.
Qed.

(** ** Reading a blob of the writer's layout *)

Lemma encodeBlob_layout (segs : list bytes) (sh : byte) :
  encodeBlob segs sh = layout (List.concat segs) (segOffsets segs) sh.
Proof. unfold encodeBlob, layout. rewrite boundaries_eq. reflexivity. Qed.

Lemma layout_split (d : bytes) (offs : list Z) (sh : byte) :
  layout d offs sh = (d ++ encodeOffsets offs) ++ PutUint32 (len d) ++ [sh].
Proof.
  unfold layout. rewrite encodeOffsets_app.
  unfold encodeOffsets at 2. cbn [flat_map]. rewrite app_nil_r.
  rewrite <- !app_assoc. reflexivity.
Qed.

Lemma len_segOffsets (segs : list bytes) : len (segOffsets segs) = len segs.
Proof. unfold segOffsets, len. rewrite length_map, length_seq. reflexivity. Qed.

Lemma len_boundaries (segs : list bytes) : len (boundaries segs) = len segs + 1.
Proof. unfold len. rewrite length_boundaries. lia. Qed.

Lemma len_layout (d : bytes) (offs : list Z) (sh : byte) :
  len (layout d offs sh) = len d + 4 * (len offs + 1) + 1.
Proof.
  unfold layout.
  rewrite !len_app, len_encodeOffsets, len_app.
  unfold len. cbn [List.length]. lia.
Qed.

Lemma blobSentinel_layout (d : bytes) (offs : list Z) (sh : byte) :
  len d <= MaxUint32 ->
  blobSentinel (layout d offs sh) = len d.
Proof.
  intros H. unfold blobSentinel. rewrite len_layout, layout_split.
  rewrite skipn_len_app by (rewrite len_app, len_encodeOffsets; lia).
  rewrite (firstn_len_app 4) by reflexivity.
  apply le_combine_PutUint32. pose proof (len_nonneg d). lia.
Qed.

Lemma blobShift_layout (d : bytes) (offs : list Z) (sh : byte) :
  blobShift (layout d offs sh) = byte.unsigned sh.
Proof.
  unfold blobShift. rewrite len_layout. unfold layout.
  rewrite app_assoc.
  replace (Z.to_nat (len d + 4 * (len offs + 1) + 1 - 1))
    with (List.length (d ++ encodeOffsets (offs ++ [len d]))).
  - rewrite nth_middle. reflexivity.
  - assert (E : len (d ++ encodeOffsets (offs ++ [len d])) = len d + 4 * (len offs + 1))
      by (rewrite len_app, len_encodeOffsets, len_app; unfold len; cbn [List.length]; lia).
    unfold len in *. lia.
Qed.

Lemma blobSegments_layout (d : bytes) (offs : list Z) (sh : byte) :
  len d <= MaxUint32 ->
  blobSegments (layout d offs sh) = d.
Proof.
  intros H. unfold blobSegments. rewrite blobSentinel_layout by exact H.
  unfold layout. apply firstn_len_app. reflexivity.
Qed.

Lemma blobTable_layout (d : bytes) (offs : list Z) (sh : byte) :
  len d <= MaxUint32 ->
  blobTable (layout d offs sh) = encodeOffsets (offs ++ [len d]).
Proof.
  intros H. unfold blobTable.
  rewrite blobSentinel_layout by exact H. rewrite len_layout.
  unfold layout. rewrite skipn_len_app by reflexivity.
  apply firstn_len_app. rewrite len_encodeOffsets, len_app.
  unfold len. cbn [List.length]. lia.
Qed.

Lemma blobInvalidb_layout (d : bytes) (offs : list Z) (sh : byte) :
  len d <= MaxUint32 ->
  blobInvalidb (layout d offs sh) = false.
Proof.
  intros H. unfold blobInvalidb.
  rewrite blobSentinel_layout by exact H. rewrite len_layout.
  pose proof (len_nonneg d). pose proof (len_nonneg offs).
  rewrite !orb_false_iff, negb_false_iff, Z.ltb_ge, Z.gtb_ltb, Z.ltb_ge, Z.eqb_eq.
  repeat split; try lia.
  replace (len d + 4 * (len offs + 1) + 1 - 1 - len d)
    with ((len offs + 1) * 4) by lia.
  apply Z.mod_mul. lia.
Qed.

Lemma len_encodeBlob (segs : list bytes) (sh : byte) :
  len (encodeBlob segs sh) = len (List.concat segs) + 4 * (len segs + 1) + 1.
Proof. rewrite encodeBlob_layout, len_layout, len_segOffsets. reflexivity. Qed.

Lemma blobSentinel_encodeBlob (segs : list bytes) (sh : byte) :
  len (List.concat segs) <= MaxUint32 ->
  blobSentinel (encodeBlob segs sh) = len (List.concat segs).
Proof. rewrite encodeBlob_layout. apply blobSentinel_layout. Qed.

Lemma blobShift_encodeBlob (segs : list bytes) (sh : byte) :
  blobShift (encodeBlob segs sh) = byte.unsigned sh.
Proof. rewrite encodeBlob_layout. apply blobShift_layout. Qed.

Lemma blobSegments_encodeBlob (segs : list bytes) (sh : byte) :
  len (List.concat segs) <= MaxUint32 ->
  blobSegments (encodeBlob segs sh) = List.concat segs.
Proof. rewrite encodeBlob_layout. apply blobSegments_layout. Qed.

Lemma blobTable_encodeBlob (segs : list bytes) (sh : byte) :
  len (List.concat segs) <= MaxUint32 ->
  blobTable (encodeBlob segs sh) = encodeOffsets (boundaries segs).
Proof.
  intros H. rewrite encodeBlob_layout, blobTable_layout by exact H.
  rewrite boundaries_eq. reflexivity.
Qed.

Lemma blobInvalidb_encodeBlob (segs : list bytes) (sh : byte) :
  len (List.concat segs) <= MaxUint32 ->
  blobInvalidb (encodeBlob segs sh) = false.
Proof. rewrite encodeBlob_layout. apply blobInvalidb_layout. Qed.

Section ReadBlob.

Context {P : FilterPolicy}.

Lemma newBlockFilterReader_encodeBlob (segs : list bytes) (sh : byte) :
  len (List.concat segs) <= MaxUint32 ->
  newBlockFilterReader (encodeBlob segs sh) = Ret (Some (blobReader segs sh)).
Proof.
  intros H. rewrite newBlockFilterReader_eq.
  rewrite blobInvalidb_encodeBlob, blobSentinel_encodeBlob, blobShift_encodeBlob by exact H.
  reflexivity.
Qed.

Lemma mayContain_spec_encodeBlob (segs : list bytes) (sh : byte)
    (blockOffset : Z) (key : bytes) :
  len (List.concat segs) <= MaxUint32 ->
  0 <= blockOffset ->
  mayContain_spec (blobReader segs sh) (encodeBlob segs sh) blockOffset key =
  segmentsMayContain segs sh blockOffset key.
Proof.
  intros H HB. unfold mayContain_spec, segmentsMayContain. cbn [blobReader lastOffset shift].
  pose proof (blobSegments_encodeBlob segs sh H) as Es.
  pose proof (blobTable_encodeBlob segs sh H) as Et.
  unfold blobSegments, blobTable in Es, Et.
  rewrite blobSentinel_encodeBlob in Es, Et by exact H.
  rewrite Es, Et. clear Es Et. cbv zeta.
  pose proof (byte.unsigned_range sh) as Hsh.
  pose proof (shiftr_nonneg_le blockOffset (byte.unsigned sh) HB (proj1 Hsh)) as Hidx.
  set (idx := Z.shiftr blockOffset (byte.unsigned sh)) in *.
  unfold numSegments. rewrite len_encodeOffsets, len_boundaries.
  replace (4 * (len segs + 1)) with ((len segs + 1) * 4) by lia.
  rewrite Z.div_mul by lia.
  replace (len segs + 1 - 1) with (len segs) by lia.
  rewrite !Z.geb_leb.
  destruct (Z.leb_spec (len segs) idx) as [Hi | Hi]; [reflexivity |].
  clearbody idx.
  assert (Ei : idx = Z.of_nat (Z.to_nat idx)) by lia.
  set (n := Z.to_nat idx) in *. clearbody n. subst idx.
  assert (Hn : (n < List.length segs)%nat) by (unfold len in Hi; lia).
  pose proof (boundaries_range segs H) as HF.
  replace (Z.of_nat n + 1) with (Z.of_nat (S n)) by lia.
  rewrite !tableEntry_encodeOffsets by (try exact HF; rewrite length_boundaries; lia).
  rewrite !nth_boundaries by lia.
  rewrite (segment_slice segs n Hn).
  pose proof (segOffset_S segs n Hn) as ES.
  pose proof (segOffset_le_total segs (S n)) as HT.
  pose proof (len_nonneg (nth n segs [])) as Hl.
  rewrite Z.gtb_ltb.
  destruct (Z.ltb_spec (len (List.concat segs)) (segOffset segs (S n)));
    [lia |].
  rewrite orb_false_r.
  destruct (Z.leb_spec (segOffset segs (S n)) (segOffset segs n));
    destruct (Z.eqb_spec (len (nth n segs [])) 0); try reflexivity; lia.
Qed.

(** Round trip: a reader of the serialised segments answers the query on
    the segments. *)
Lemma mayContain_encodeBlob (segs : list bytes) (sh : byte)
    (blockOffset : Z) (key : bytes) :
  len (List.concat segs) <= MaxUint32 ->
  len (encodeBlob segs sh) <= MaxInt ->
  0 <= blockOffset <= MaxUint64 ->
  mayContain (blobReader segs sh) (encodeBlob segs sh) blockOffset key =
  Ret (segmentsMayContain segs sh blockOffset key).
Proof.
  intros H HD HB.
  rewrite mayContain_eq; cbn [blobReader lastOffset shift].
  - rewrite mayContain_spec_encodeBlob by lia. reflexivity.
  - rewrite len_encodeBlob.
    pose proof (len_nonneg (List.concat segs)). pose proof (len_nonneg segs). lia.
  - apply byte.unsigned_range.
  - exact HD.
  - exact HB.
Qed.

End ReadBlob.

(** ** The writer *)

Section Writer.

Context {P : FilterPolicy}.

(** *** appendOffset and emit *)

Lemma appendOffset_Ok (f : blockFilterWriter) :
  len (data f) <= MaxUint32 ->
  appendOffset f =
  Ok {| writer := writer f; count := count f; data := data f;
        offsets := offsets f ++ [len (data f)] |}.
Proof.
  intros H. unfold appendOffset. rewrite uint64_of_int_len.
  pose proof (len_nonneg (data f)).
  rewrite wrap32_small by lia.
  unfold MaxUint32 in H. rewrite Z.gtb_ltb.
  destruct (Z.ltb_spec (2 ^ 32 - 1) (len (data f))); [lia | reflexivity].
Qed.

Lemma appendOffset_Err (f : blockFilterWriter) :
  MaxUint32 < len (data f) -> appendOffset f = Err errTooLong.
Proof.
  intros H. unfold appendOffset. rewrite uint64_of_int_len.
  unfold MaxUint32 in H. rewrite Z.gtb_ltb.
  destruct (Z.ltb_spec (2 ^ 32 - 1) (len (data f))); [reflexivity | lia].
Qed.

Lemma emit_Err (f : blockFilterWriter) :
  MaxUint32 < len (data f) -> emit f = Err errTooLong.
Proof. intros H. unfold emit. rewrite appendOffset_Err by exact H. reflexivity. Qed.

Lemma emit_Ok (f : blockFilterWriter) :
  len (data f) <= MaxUint32 ->
  emit f =
  Ok (if hasKeys f
      then {| writer := snd (Finish (writer f) (data f)); count := 0;
              data := fst (Finish (writer f) (data f));
              offsets := offsets f ++ [len (data f)] |}
      else {| writer := writer f; count := count f; data := data f;
              offsets := offsets f ++ [len (data f)] |}).
Proof.
  intros H. unfold emit. rewrite appendOffset_Ok by exact H.
  unfold hasKeys. cbn [count writer data offsets].
  destruct (negb (count f =? 0)); reflexivity.
Qed.

Lemma emit_cases (f : blockFilterWriter) :
  (MaxUint32 < len (data f) /\ emit f = Err errTooLong) \/
  (len (data f) <= MaxUint32 /\ exists f', emit f = Ok f' /\
     offsets f' = offsets f ++ [len (data f)] /\
     (if hasKeys f
      then data f' = fst (Finish (writer f) (data f)) /\
           writer f' = snd (Finish (writer f) (data f)) /\ count f' = 0
      else data f' = data f /\ writer f' = writer f /\ count f' = count f)).
Proof.
  destruct (Z.lt_ge_cases MaxUint32 (len (data f))) as [H | H].
  - left. split; [exact H | apply emit_Err, H].
  - right. split; [exact H |]. rewrite emit_Ok by exact H.
    eexists. split; [reflexivity |].
    destruct (hasKeys f); cbn [offsets data writer count]; repeat split.
Qed.

Lemma emit_Ok_inv (f f' : blockFilterWriter) :
  emit f = Ok f' ->
  len (data f) <= MaxUint32 /\
  offsets f' = offsets f ++ [len (data f)] /\
  (if hasKeys f
   then data f' = fst (Finish (writer f) (data f)) /\
        writer f' = snd (Finish (writer f) (data f)) /\ count f' = 0
   else data f' = data f /\ writer f' = writer f /\ count f' = count f).
Proof.
  intros E. destruct (emit_cases f) as [[_ E'] | (H & f'' & E' & R)].
  - congruence.
  - assert (f'' = f') by congruence. subst f''. split; [exact H | exact R].
Qed.

Lemma emit_Err_inv (f : blockFilterWriter) (e : string) :
  emit f = Err e -> MaxUint32 < len (data f) /\ e = errTooLong.
Proof.
  intros E. destruct (emit_cases f) as [[H E'] | (H & f'' & E' & R)].
  - split; [exact H | congruence].
  - congruence.
Qed.

(** *** The loop of finishBlock *)

(** The loop, one iteration unrolled: the fuel that [finishBlock] provides
    is the fuel that the rest of the loop needs. *)
Lemma finishBlock_unfold (f : blockFilterWriter) (blockOffset : Z) :
  finishBlock f blockOffset =
  if Z.shiftr blockOffset filterBaseLog >? len (offsets f) then
    match emit f with
    | Err e => Some (Err e)
    | Ok f => finishBlock f blockOffset
    end
  else Some (Ok f).
Proof.
  unfold finishBlock at 1. cbn [finishBlock_loop]. rewrite uint64_of_int_len.
  set (i := Z.shiftr blockOffset filterBaseLog).
  rewrite Z.gtb_ltb.
  destruct (Z.ltb_spec (len (offsets f)) i) as [Hi | Hi]; [| reflexivity].
  destruct (emit f) as [f' | e] eqn:E; [| reflexivity].
  apply emit_Ok_inv in E. destruct E as (_ & Eo & _).
  unfold finishBlock. fold i.
  assert (Z.to_nat (i - len (offsets f)) = S (Z.to_nat (i - len (offsets f')))) as ->
    by (rewrite Eo, len_app, len_cons, len_nil; lia).
  reflexivity.
Qed.

(** [finishBlock] always returns: it is the calls of [emit] that bring the
    number of offsets up to [blockOffset >> filterBaseLog]. *)
Lemma finishBlock_emits (f : blockFilterWriter) (blockOffset : Z) :
  finishBlock f blockOffset =
  Some (emits (Z.to_nat (Z.shiftr blockOffset filterBaseLog - len (offsets f))) f).
Proof.
  set (i := Z.shiftr blockOffset filterBaseLog).
  remember (Z.to_nat (i - len (offsets f))) as n eqn:En.
  revert f En. induction n as [| n IH]; intros f En.
  - rewrite finishBlock_unfold. fold i. rewrite Z.gtb_ltb.
    destruct (Z.ltb_spec (len (offsets f)) i); [lia | reflexivity].
  - rewrite finishBlock_unfold. fold i. rewrite Z.gtb_ltb.
    destruct (Z.ltb_spec (len (offsets f)) i); [| lia].
    cbn [emits]. destruct (emit f) as [f' | e] eqn:E; [| reflexivity].
    apply IH. apply emit_Ok_inv in E. destruct E as (_ & Eo & _).
    rewrite Eo, len_app, len_cons, len_nil. lia.
Qed.

Lemma finishBlock_returns (f : blockFilterWriter) (blockOffset : Z) :
  exists r, finishBlock f blockOffset = Some r.
Proof. eexists. apply finishBlock_emits. Qed.

Lemma emits_offsets (n : nat) (f f' : blockFilterWriter) :
  emits n f = Ok f' -> len (offsets f') = len (offsets f) + Z.of_nat n.
Proof.
  revert f. induction n as [| n IH]; intros f E; cbn [emits] in E.
  - injection E as <-. lia.
  - destruct (emit f) as [f1 |] eqn:E1; [| discriminate].
    apply IH in E. apply emit_Ok_inv in E1. destruct E1 as (_ & Eo & _).
    rewrite E, Eo, len_app, len_cons, len_nil. lia.
Qed.

Lemma finishBlock_offsets (f f' : blockFilterWriter) (blockOffset : Z) :
  finishBlock f blockOffset = Some (Ok f') ->
  len (offsets f') = Z.max (len (offsets f)) (Z.shiftr blockOffset filterBaseLog).
Proof.
  rewrite finishBlock_emits. intros [= E]. apply emits_offsets in E. lia.
Qed.

(** [finish], with its two steps: the flush of the pending keys and the
    layout of the blob. *)
Lemma finish_eq (f : blockFilterWriter) :
  finish f =
  match flush f with
  | Err e => Err e
  | Ok f' =>
      if len (data f') <=? MaxUint32
      then Ok (layout (data f') (offsets f') (byte.of_Z filterBaseLog))
      else Err errTooLong
  end.
Proof.
  unfold finish, flush.
  destruct (if hasKeys f then emit f else Ok f) as [f' | e]; [| reflexivity].
  destruct (Z.leb_spec (len (data f')) MaxUint32) as [H | H].
  - rewrite appendOffset_Ok by exact H. cbn [data offsets].
    rewrite appendOffsets_eq. unfold layout. rewrite <- app_assoc. reflexivity.
  - rewrite appendOffset_Err by exact H. reflexivity.
Qed.

Lemma finish_Ok_inv (f : blockFilterWriter) (blob : bytes) :
  finish f = Ok blob ->
  exists f', flush f = Ok f' /\ len (data f') <= MaxUint32 /\
    blob = layout (data f') (offsets f') (byte.of_Z filterBaseLog).
Proof.
  rewrite finish_eq. destruct (flush f) as [f' | e]; [| discriminate].
  destruct (Z.leb_spec (len (data f')) MaxUint32) as [H | H]; [| discriminate].
  intros [= <-]. exists f'. repeat split. exact H.
Qed.

End Writer.

(** ** The writer holds a list of segments *)

Section Representation.

Context {P : FilterPolicy}.

Lemma rep_new : rep newBlockFilterWriter [].
Proof. split; reflexivity. Qed.

Lemma rep_addKey (f : blockFilterWriter) (segs : list bytes) (key : bytes) :
  rep f segs -> rep (addKey f key) segs.
Proof. intros H. exact H. Qed.

Lemma concat_snoc (segs : list bytes) (s : bytes) :
  List.concat (segs ++ [s]) = List.concat segs ++ s.
Proof. rewrite concat_app. cbn [List.concat]. rewrite app_nil_r. reflexivity. Qed.

Lemma rep_snoc (f f' : blockFilterWriter) (segs : list bytes) (s : bytes) :
  rep f segs ->
  offsets f' = offsets f ++ [len (data f)] ->
  data f' = data f ++ s ->
  rep f' (segs ++ [s]).
Proof.
  intros [Hd Ho] Eo Ed. split.
  - rewrite Ed, Hd, concat_snoc. reflexivity.
  - rewrite Eo, Ho, Hd, segOffsets_snoc. reflexivity.
Qed.

(** One [emit] adds one segment: the filter of the pending keys, or the
    empty segment when none is pending. *)
Lemma rep_emit `{!FinishAppends P} (f f' : blockFilterWriter) (segs : list bytes) :
  rep f segs ->
  emit f = Ok f' ->
  exists s, rep f' (segs ++ [s]) /\
    (if hasKeys f
     then fst (Finish (writer f) (data f)) = data f ++ s /\
          writer f' = snd (Finish (writer f) (data f)) /\ count f' = 0
     else s = [] /\ writer f' = writer f /\ count f' = count f).
Proof.
  intros R E. apply emit_Ok_inv in E. destruct E as (_ & Eo & C).
  destruct (hasKeys f).
  - destruct C as (Ed & Ew & Ec).
    destruct (finish_appends (writer f) (data f)) as [s Es].
    exists s. split; [| repeat split; assumption].
    apply (rep_snoc f f' segs s R Eo). congruence.
  - destruct C as (Ed & Ew & Ec).
    exists []. split; [| repeat split; assumption].
    apply (rep_snoc f f' segs [] R Eo). rewrite app_nil_r. exact Ed.
Qed.

Lemma rep_emits `{!FinishAppends P} (n : nat) (f f' : blockFilterWriter) (segs : list bytes) :
  rep f segs ->
  emits n f = Ok f' ->
  exists segs', rep f' segs'.
Proof.
  revert f segs. induction n as [| n IH]; intros f segs R E; cbn [emits] in E.
  - injection E as <-. exists segs. exact R.
  - destruct (emit f) as [f1 |] eqn:E1; [| discriminate].
    destruct (rep_emit f f1 segs R E1) as (s & R1 & _).
    exact (IH f1 _ R1 E).
Qed.

Lemma rep_run `{!FinishAppends P} (ops : list op) (f f' : blockFilterWriter)
    (segs : list bytes) :
  rep f segs ->
  run ops f = Some (Ok f') ->
  exists segs', rep f' segs'.
Proof.
  revert f segs. induction ops as [| o ops IH]; intros f segs R E; cbn [run] in E.
  - injection E as <-. exists segs. exact R.
  - destruct o as [key | blockOffset].
    + exact (IH _ segs (rep_addKey f segs key R) E).
    + destruct (finishBlock f blockOffset) as [[f1 | e] |] eqn:E1; try discriminate.
      rewrite finishBlock_emits in E1. injection E1 as E1.
      destruct (rep_emits _ f f1 segs R E1) as [segs1 R1].
      exact (IH f1 segs1 R1 E).
Qed.

Lemma rep_flush `{!FinishAppends P} (f f' : blockFilterWriter) (segs : list bytes) :
  rep f segs ->
  flush f = Ok f' ->
  exists segs', rep f' segs'.
Proof.
  unfold flush. intros R E. destruct (hasKeys f).
  - destruct (rep_emit f f' segs R E) as (s & R' & _). eexists. exact R'.
  - injection E as <-. exists segs. exact R.
Qed.

(** The blob of a writer that holds [segs]. *)
Lemma rep_layout (f : blockFilterWriter) (segs : list bytes) (sh : byte) :
  rep f segs -> layout (data f) (offsets f) sh = encodeBlob segs sh.
Proof. intros [-> ->]. symmetry. apply encodeBlob_layout. Qed.

End Representation.

Lemma Sorted_adjacent (l : list Z) :
  (forall i, (S i < List.length l)%nat -> nth i l 0 <= nth (S i) l 0) ->
  Sorted Z.le l.
Proof.
  induction l as [| a l IH]; intros H; [constructor |].
  constructor.
  - apply IH. intros i Hi. apply (H (S i)). cbn [List.length]. lia.
  - destruct l as [| b l]; constructor.
    apply (H 0%nat). cbn [List.length]. lia.
Qed.

Lemma boundaries_adjacent (segs : list bytes) (i : nat) :
  (S i < List.length (boundaries segs))%nat ->
  nth i (boundaries segs) 0 <= nth (S i) (boundaries segs) 0 <= len (List.concat segs).
Proof.
  rewrite length_boundaries. intros Hi.
  rewrite !nth_boundaries by lia. split.
  - apply segOffset_mono. lia.
  - apply segOffset_le_total.
Qed.

Lemma last_boundaries (segs : list bytes) :
  last (boundaries segs) 0 = len (List.concat segs).
Proof. rewrite boundaries_eq. apply last_last. Qed.

(** ** Keys are covered by segments *)

Section NoFalseNegative.

Context {P : FilterPolicy} `{!FinishAppends P} {S : NoFalseNegatives P}.

Lemma good_snoc (segs : list bytes) (s : bytes) (x : Z * bytes) :
  good segs x -> good (segs ++ [s]) x.
Proof.
  unfold good. cbv zeta. intros [Hn Hm]. split.
  - rewrite length_app. lia.
  - rewrite app_nth1 by exact Hn. exact Hm.
Qed.

Lemma covered_emit (f f' : blockFilterWriter) (segs : list bytes) :
  rep f segs ->
  writerKind (writer f) = BlockFilter ->
  emit f = Ok f' ->
  exists s, rep f' (segs ++ [s]) /\
    writerKind (writer f') = BlockFilter /\
    (count f' = 0 \/ count f' = count f) /\
    forall x, covered f segs x -> good (segs ++ [s]) x.
Proof.
  intros R K E. destruct (rep_emit f f' segs R E) as (s & R' & C).
  exists s. split; [exact R' |].
  unfold hasKeys in C. destruct (Z.eqb_spec (count f) 0) as [Hc | Hc]; cbn [negb] in C.
  - destruct C as (-> & Ew & Ec).
    split; [congruence |]. split; [right; exact Ec |].
    intros x [G | (_ & _ & Hp)]; [apply good_snoc, G | contradiction].
  - destruct C as (Es & Ew & Ec).
    split; [rewrite Ew, writerKind_Finish; exact K |]. split; [left; exact Ec |].
    intros x [G | (Hn & Hin & _)]; [apply good_snoc, G |].
    unfold good. cbv zeta. rewrite Hn, nth_middle, length_app. cbn [List.length].
    split; [lia |]. intros _. rewrite <- K.
    exact (Finish_sound (writer f) (data f) s (snd x) Es Hin).
Qed.

Lemma covered_emits (n : nat) (f f' : blockFilterWriter) (segs : list bytes)
    (G : list (Z * bytes)) :
  rep f segs ->
  writerKind (writer f) = BlockFilter ->
  0 <= count f ->
  Forall (covered f segs) G ->
  emits n f = Ok f' ->
  exists segs', rep f' segs' /\
    writerKind (writer f') = BlockFilter /\
    0 <= count f' <= count f /\
    List.length segs' = (List.length segs + n)%nat /\
    Forall (covered f' segs') G.
Proof.
  revert f segs. induction n as [| n IH]; intros f segs R K Hc HG E; cbn [emits] in E.
  - injection E as <-. exists segs.
    split; [exact R |]. split; [exact K |]. split; [lia |]. split; [lia | exact HG].
  - destruct (emit f) as [f1 |] eqn:E1; [| discriminate].
    destruct (covered_emit f f1 segs R K E1) as (s & R1 & K1 & Hc1 & Hg).
    destruct (IH f1 (segs ++ [s]) R1 K1 ltac:(lia)) as (segs' & R' & K' & Hc' & Hl & HG');
      [| exact E |].
    + eapply Forall_impl; [| exact HG]. intros x Hx. left. apply Hg, Hx.
    + exists segs'.
      split; [exact R' |]. split; [exact K' |]. split; [lia |]. split; [| exact HG'].
      rewrite Hl, length_app. cbn [List.length]. lia.
Qed.

Lemma covered_addKey (f : blockFilterWriter) (segs : list bytes) (key : bytes)
    (x : Z * bytes) :
  0 <= count f < MaxInt ->
  covered f segs x -> covered (addKey f key) segs x.
Proof.
  intros Hc [G | (Hn & Hin & _)]; [left; exact G | right].
  split; [exact Hn |]. cbn [addKey writer count]. split.
  - apply pendingKeys_AddKey. right. exact Hin.
  - rewrite wrap_int_small by (unfold MaxInt in *; lia). lia.
Qed.

Lemma shiftr_mono (a b s : Z) : 0 <= s -> a <= b -> Z.shiftr a s <= Z.shiftr b s.
Proof.
  intros Hs H. rewrite !Z.shiftr_div_pow2 by exact Hs.
  apply Z.div_le_mono; [apply Z.pow_pos_nonneg; lia | exact H].
Qed.

(** The invariant of a run: the keys added so far are covered, and the
    number of emitted segments is the window index of the current block
    offset. *)
Lemma covered_run (ops : list op) (cur : Z) (f f' : blockFilterWriter)
    (segs : list bytes) (G : list (Z * bytes)) :
  rep f segs ->
  writerKind (writer f) = BlockFilter ->
  0 <= count f ->
  count f + len ops <= MaxInt ->
  0 <= cur ->
  len segs = Z.shiftr cur filterBaseLog ->
  monotone cur ops ->
  Forall (covered f segs) G ->
  run ops f = Some (Ok f') ->
  exists segs', rep f' segs' /\
    writerKind (writer f') = BlockFilter /\
    Forall (covered f' segs') (G ++ addedUnder cur ops).
Proof.
  revert cur f segs G.
  induction ops as [| o ops IH]; intros cur f segs G R K Hc Hn Hcur Hl Hm HG E;
    cbn [run addedUnder monotone] in *.
  - injection E as <-. exists segs. rewrite app_nil_r.
    split; [exact R |]. split; [exact K | exact HG].
  - rewrite len_cons in Hn. pose proof (len_nonneg ops) as Hops.
    destruct o as [key | blockOffset].
    + replace (G ++ (cur, key) :: addedUnder cur ops)
        with ((G ++ [(cur, key)]) ++ addedUnder cur ops)
        by (rewrite <- app_assoc; reflexivity).
      assert (Hc' : count (addKey f key) = count f + 1)
        by (cbn [addKey count]; apply wrap_int_small; unfold MaxInt in *; lia).
      apply (IH cur (addKey f key) segs); try assumption; try lia.
      * cbn [addKey writer]. rewrite writerKind_AddKey. exact K.
      * apply Forall_app. split.
        -- eapply Forall_impl; [| exact HG]. intros x Hx.
           apply covered_addKey; [lia | exact Hx].
        -- constructor; [| constructor]. right. unfold pending. cbn [fst snd].
           split; [unfold len in Hl; lia |]. split.
           ++ cbn [addKey writer]. apply pendingKeys_AddKey. left. reflexivity.
           ++ lia.
    + destruct Hm as [Hb Hm].
      destruct (finishBlock f blockOffset) as [[f1 | e] |] eqn:E1; try discriminate.
      rewrite finishBlock_emits in E1. injection E1 as E1.
      destruct (covered_emits _ f f1 segs G R K Hc HG E1)
        as (segs1 & R1 & K1 & Hc1 & Hl1 & HG1).
      apply (IH blockOffset f1 segs1); try assumption; try lia.
      destruct R as [_ Ro]. rewrite Ro, len_segOffsets in Hl1.
      pose proof (shiftr_mono cur blockOffset filterBaseLog ltac:(unfold filterBaseLog; lia)
                    (proj1 Hb)).
      unfold len in *. lia.
Qed.

Lemma covered_flush (f f' : blockFilterWriter) (segs : list bytes) (G : list (Z * bytes)) :
  rep f segs ->
  writerKind (writer f) = BlockFilter ->
  Forall (covered f segs) G ->
  flush f = Ok f' ->
  exists segs', rep f' segs' /\ Forall (good segs') G.
Proof.
  unfold flush, hasKeys. intros R K HG E.
  destruct (Z.eqb_spec (count f) 0) as [Hc | Hc]; cbn [negb] in E.
  - injection E as <-. exists segs. split; [exact R |].
    eapply Forall_impl; [| exact HG].
    intros x [Hg | (_ & _ & Hp)]; [exact Hg | contradiction].
  - destruct (covered_emit f f' segs R K E) as (s & R' & _ & _ & Hg).
    exists (segs ++ [s]). split; [exact R' |].
    eapply Forall_impl; [| exact HG]. exact Hg.
Qed.

End NoFalseNegative.

(** ** The concrete policy *)

Lemma FirstBytePolicy_appends : FinishAppends FirstBytePolicy.
Proof. intros w buf. eexists. reflexivity. Qed.

(** * The claims *)

Section ReaderClaims.

Context {P : FilterPolicy}.

(** C5. Constructing a per-block reader from a raw blob never panics, and it
    returns the nil (unusable) reader exactly when the blob is structurally
    invalid: shorter than 5 bytes, or with a sentinel that exceeds the space
    available for segment data, or with an offset-table region (from the
    position the sentinel names to the shift byte) whose length is not
    divisible by 4.  In particular a blob of length 3 yields nil. *)
Theorem newBlockFilterReader_validates (D : bytes) :
  exists r, newBlockFilterReader D = Ret r /\
    (r = None <-> blobInvalid D) /\
    (len D = 3 -> r = None).
Proof.
  rewrite newBlockFilterReader_eq. eexists. split; [reflexivity |].
  rewrite <- blobInvalidb_spec.
  destruct (blobInvalidb D) eqn:E.
  - split; [tauto |]. reflexivity.
  - split; [split; [discriminate | discriminate] |].
    intros H3. unfold blobInvalidb in E. rewrite H3 in E. discriminate.
Qed.

(** C2. For a reader constructed from a blob and any block offset and key,
    [mayContain] computes [index = blockOffset >> shift]; with [N] the
    number of segments of a table of [N+1] entries, it answers [true] when
    [index >= N]; otherwise, with [(low, high)] the boundary pair at
    [index], it answers [true] when [low >= high] or [high] exceeds the
    length of the segment data, and otherwise exactly the policy's answer
    over [segments[low:high]] with kind [BlockFilter]. *)
Theorem mayContain_refines (f : blockFilterReader) (D : bytes)
    (blockOffset : Z) (key : bytes) :
  newBlockFilterReader D = Ret (Some f) ->
  len D <= MaxInt ->
  0 <= blockOffset <= MaxUint64 ->
  let segments := blobSegments D in
  let tbl := blobTable D in
  let idx := Z.shiftr blockOffset (shift f) in
  let N := numSegments tbl in
  let low := tableEntry tbl idx in
  let high := tableEntry tbl (idx + 1) in
  len tbl = 4 * (N + 1) /\
  (N <= idx -> mayContain f D blockOffset key = Ret true) /\
  (idx < N -> high <= low \/ len segments < high ->
   mayContain f D blockOffset key = Ret true) /\
  (idx < N -> low < high -> high <= len segments ->
   mayContain f D blockOffset key =
   Ret (MayContain BlockFilter
          (firstn (Z.to_nat (high - low)) (skipn (Z.to_nat low) segments)) key)).
Proof.
  intros Hnew HD HB.
  apply newBlockFilterReader_Some in Hnew.
  destruct Hnew as (H5 & EL & Esh & HL & Hmod).
  pose proof (blobShift_range D) as Hsh. rewrite <- Esh in Hsh.
  cbv zeta. unfold blobSegments, blobTable. rewrite <- EL.
  rewrite (mayContain_eq f D blockOffset key) by lia.
  unfold mayContain_spec.
  set (segs := firstn (Z.to_nat (lastOffset f)) D).
  set (tbl := firstn (Z.to_nat (len D - 1 - lastOffset f)) _).
  set (idx := Z.shiftr blockOffset (shift f)).
  assert (Htbl : len tbl = len D - 1 - lastOffset f) by (subst tbl; apply len_slice; lia).
  cbv zeta. rewrite !Z.geb_leb, Z.gtb_ltb.
  split; [| split; [| split]].
  - unfold numSegments. rewrite Htbl.
    pose proof (Z.div_mod (len D - 1 - lastOffset f) 4 ltac:(lia)). lia.
  - intros Hi. destruct (Z.leb_spec (numSegments tbl) idx); [reflexivity | lia].
  - intros Hi Hc. destruct (Z.leb_spec (numSegments tbl) idx); [reflexivity |].
    destruct (Z.leb_spec (tableEntry tbl (idx + 1)) (tableEntry tbl idx)); cbn [orb];
      [reflexivity |].
    destruct (Z.ltb_spec (len segs) (tableEntry tbl (idx + 1))); [reflexivity | lia].
  - intros Hi Hlt Hle. destruct (Z.leb_spec (numSegments tbl) idx); [lia |].
    destruct (Z.leb_spec (tableEntry tbl (idx + 1)) (tableEntry tbl idx)); [lia |].
    destruct (Z.ltb_spec (len segs) (tableEntry tbl (idx + 1))); [lia |].
    reflexivity.
Qed.

(** C10. For a reader constructed from a blob [D], every slice expression
    and every 4-byte read of [mayContain] on that same blob is in range, for
    every block offset and key: the two slices of the blob, and when the
    index is below the number of segments the reads at [4*index] and
    [4*index+4] and, when it is taken, the slice [data[i:j]]; so the call
    does not panic. *)
Theorem mayContain_in_bounds (f : blockFilterReader) (D : bytes)
    (blockOffset : Z) (key : bytes) :
  newBlockFilterReader D = Ret (Some f) ->
  len D <= MaxInt ->
  0 <= blockOffset <= MaxUint64 ->
  exists data' offsets,
    slice D 0 (lastOffset f) = Ret data' /\
    slice D (lastOffset f) (len D - 1) = Ret offsets /\
    (let index := Z.shiftr blockOffset (shift f) in
     index < uint64_of_int (Z.quot (len offsets) 4 - 1) ->
     exists lo i hi j,
       slice_from offsets (wrap64 (wrap64 (4 * index) + 0)) = Ret lo /\
       Uint32 lo = Ret i /\
       slice_from offsets (wrap64 (wrap64 (4 * index) + 4)) = Ret hi /\
       Uint32 hi = Ret j /\
       (i < j -> wrap64 j <= uint64_of_int (len data') ->
        exists seg, slice data' i j = Ret seg)) /\
    exists b, mayContain f D blockOffset key = Ret b.
Proof.
  intros Hnew HD HB.
  apply newBlockFilterReader_Some in Hnew.
  destruct Hnew as (H5 & EL & Esh & HL & Hmod).
  pose proof (blobShift_range D) as Hsh. rewrite <- Esh in Hsh.
  do 2 eexists.
  split; [apply slice_Ret; lia |].
  split; [apply slice_Ret; lia |].
  split.
  - cbv zeta.
    set (segs := firstn (Z.to_nat (lastOffset f - 0)) _).
    set (tbl := firstn (Z.to_nat (len D - 1 - lastOffset f)) _).
    assert (Hsegs : len segs = lastOffset f) by (subst segs; rewrite len_slice by lia; lia).
    assert (Htbl : len tbl = len D - 1 - lastOffset f) by (subst tbl; apply len_slice; lia).
    pose proof (shiftr_nonneg_le blockOffset (shift f) (proj1 HB) (proj1 Hsh)) as Hidx.
    set (idx := Z.shiftr blockOffset (shift f)) in *.
    rewrite Z.quot_div_nonneg by lia.
    assert (Hq : 0 <= len tbl / 4 - 1 /\ 4 * (len tbl / 4) <= len tbl).
    { pose proof (Z.div_mod (len tbl) 4 ltac:(lia)).
      pose proof (Z.mod_pos_bound (len tbl) 4 ltac:(lia)). lia. }
    rewrite uint64_of_int_nonneg by lia. intros Hi.
    unfold MaxInt, MaxUint64 in *.
    rewrite (wrap64_small (4 * idx)) by (unfold MaxUint64; lia).
    rewrite !wrap64_small by (unfold MaxUint64; lia).
    do 4 eexists.
    split; [apply slice_from_Ret; lia |].
    split; [apply Uint32_Ret; rewrite len_skipn by lia; lia |].
    split; [apply slice_from_Ret; lia |].
    split; [apply Uint32_Ret; rewrite len_skipn by lia; lia |].
    intros Hij Hj. eexists. apply slice_Ret.
    + pose proof (le_combine_bound (firstn 4 (skipn (Z.to_nat (4 * idx + 0)) tbl))). lia.
    + rewrite uint64_of_int_len in Hj.
      pose proof (tableEntry_range tbl (idx + 1)) as Rj.
      unfold tableEntry, MaxUint32 in Rj.
      replace (4 * (idx + 1)) with (4 * idx + 4) in Rj by lia.
      rewrite wrap64_small in Hj by (unfold MaxUint64; lia). exact Hj.
  - eexists. apply mayContain_eq; lia.
Qed.

End ReaderClaims.

Section WriterClaims.

Context {P : FilterPolicy}.

(** C3, as amended. After [finishBlock(blockOffset)] returns without error,
    the segments of all windows strictly before the window of [blockOffset]
    have been emitted: the number of emitted segments is at least
    [blockOffset >> filterBaseLog], and it is the larger of that number and
    the number of segments emitted before the call. *)
Theorem finishBlock_emits_windows_before (f f' : blockFilterWriter) (blockOffset : Z) :
  finishBlock f blockOffset = Some (Ok f') ->
  Z.shiftr blockOffset filterBaseLog <= len (offsets f') /\
  len (offsets f') = Z.max (len (offsets f)) (Z.shiftr blockOffset filterBaseLog).
Proof.
  intros H. apply finishBlock_offsets in H. split; [lia | exact H].
Qed.


(** C6. [finishBlock] and [finish] return an error exactly when the length
    of the segment data exceeds [2^32 - 1] at a moment when a boundary or the
    sentinel is recorded, and the error is the one of [appendOffset]:
    [finishBlock] fails when, after some of the emissions it has to make,
    the data is too long for the next boundary; [finish] fails when the data
    is too long for the boundary of the last segment or, after the flush,
    for the sentinel. *)
Theorem filter_too_long_iff :
  (forall f e,
     appendOffset f = Err e <-> MaxUint32 < len (data f) /\ e = errTooLong) /\
  (forall f blockOffset e,
     finishBlock f blockOffset = Some (Err e) <->
     e = errTooLong /\
     exists (k : nat) f',
       Z.of_nat k < Z.shiftr blockOffset filterBaseLog - len (offsets f) /\
       emits k f = Ok f' /\ MaxUint32 < len (data f')) /\
  (forall f e,
     finish f = Err e <->
     e = errTooLong /\
     ((hasKeys f = true /\ MaxUint32 < len (data f)) \/
      exists f', flush f = Ok f' /\ MaxUint32 < len (data f'))).
Proof.
  split; [| split].
  - intros f e. split.
    + intros E. destruct (Z.lt_ge_cases MaxUint32 (len (data f))) as [H | H].
      * rewrite appendOffset_Err in E by exact H. split; [exact H | congruence].
      * rewrite appendOffset_Ok in E by exact H. discriminate.
    + intros [H ->]. apply appendOffset_Err, H.
  - intros f blockOffset e. rewrite finishBlock_emits.
    set (i := Z.shiftr blockOffset filterBaseLog).
    assert (G : forall n f, emits n f = Err e <->
              e = errTooLong /\ exists (k : nat) f',
                (k < n)%nat /\ emits k f = Ok f' /\ MaxUint32 < len (data f')).
    { induction n as [| n IH]; intros g.
      - cbn [emits]. split; [discriminate |]. intros (_ & k & _ & Hk & _). lia.
      - cbn [emits]. destruct (emit_cases g) as [[H E] | (H & g' & E & _)]; rewrite E.
        + split.
          * intros [= <-]. split; [reflexivity |].
            exists 0%nat, g. repeat split; [lia | exact H].
          * intros [-> _]. reflexivity.
        + rewrite IH. split.
          * intros (-> & k & g'' & Hk & Ek & Hd). split; [reflexivity |].
            exists (S k), g''. cbn [emits]. rewrite E. repeat split; [lia | exact Ek | exact Hd].
          * intros (-> & k & g'' & Hk & Ek & Hd). split; [reflexivity |].
            destruct k as [| k].
            -- cbn [emits] in Ek. injection Ek as <-. lia.
            -- cbn [emits] in Ek. rewrite E in Ek.
               exists k, g''. repeat split; [lia | exact Ek | exact Hd]. }
    split.
    + intros [= E]. apply G in E. destruct E as (-> & k & f' & Hk & Ek & Hd).
      split; [reflexivity |]. exists k, f'. repeat split; [lia | exact Ek | exact Hd].
    + intros (-> & k & f' & Hk & Ek & Hd). f_equal. apply G.
      split; [reflexivity |]. exists k, f'. repeat split; [lia | exact Ek | exact Hd].
  - intros f e. rewrite finish_eq. unfold flush.
    destruct (hasKeys f) eqn:Hk.
    + destruct (emit_cases f) as [[H E] | (H & f' & E & _)]; rewrite E.
      * split.
        -- intros [= <-]. split; [reflexivity |]. left. split; [reflexivity | exact H].
        -- intros [-> _]. reflexivity.
      * destruct (Z.leb_spec (len (data f')) MaxUint32) as [H' | H'].
        -- split; [discriminate |].
           intros (_ & [[_ Hd] | (f'' & [= <-] & Hd)]); lia.
        -- split.
           ++ intros [= <-]. split; [reflexivity |]. right. exists f'. split; [reflexivity | exact H'].
           ++ intros [-> _]. reflexivity.
    + destruct (Z.leb_spec (len (data f)) MaxUint32) as [H' | H'].
      * split; [discriminate |].
        intros (_ & [[Hd _] | (f'' & [= <-] & Hd)]); [discriminate | lia].
      * split.
        -- intros [= <-]. split; [reflexivity |]. right. exists f. split; [reflexivity | exact H'].
        -- intros [-> _]. reflexivity.
Qed.

(** C9. Every blob that a successful [finish] returns is accepted by
    [newBlockFilterReader]: the constructor returns a reader, whose [shift]
    is 11 and whose [lastOffset] is the length of the segment data of the
    blob, the data the writer holds once it has flushed. *)
Theorem finish_blob_accepted (f : blockFilterWriter) (blob : bytes) :
  finish f = Ok blob ->
  exists r f',
    newBlockFilterReader blob = Ret (Some r) /\
    shift r = 11 /\
    flush f = Ok f' /\
    blobSegments blob = data f' /\
    lastOffset r = len (blobSegments blob).
Proof.
  intros E. apply finish_Ok_inv in E. destruct E as (f' & Ef & Hd & ->).
  eexists. exists f'.
  rewrite newBlockFilterReader_eq, blobInvalidb_layout by exact Hd.
  split; [reflexivity |]. cbn [shift lastOffset].
  rewrite blobShift_layout, blobSentinel_layout, blobSegments_layout by exact Hd.
  repeat split. exact Ef.
Qed.

End WriterClaims.

Section BlobClaims.

Context {P : FilterPolicy}.

(** C7. For every sequence of [addKey] and [finishBlock] calls followed by
    a successful [finish], with a policy whose [Finish] appends to the buffer
    it is given, the offset table of the blob is non-decreasing, its length
    in bytes is divisible by 4, its last entry, the sentinel, is the length
    of the segment data, and every adjacent pair [(low, high)] of entries
    satisfies [low <= high <= len(segments)]. *)
Theorem offset_table_well_formed `{!FinishAppends P}
    (ops : list op) (f : blockFilterWriter) (blob : bytes) :
  run ops newBlockFilterWriter = Some (Ok f) ->
  finish f = Ok blob ->
  let tbl := tableEntries (blobTable blob) in
  let total := len (blobSegments blob) in
  len (blobTable blob) mod 4 = 0 /\
  4 * len tbl = len (blobTable blob) /\
  Sorted Z.le tbl /\
  last tbl 0 = total /\
  blobSentinel blob = total /\
  (forall i, (S i < List.length tbl)%nat ->
     nth i tbl 0 <= nth (S i) tbl 0 <= total).
Proof.
  intros Erun Efin.
  destruct (rep_run ops _ f [] rep_new Erun) as [segs R].
  apply finish_Ok_inv in Efin. destruct Efin as (f' & Ef & Hd & ->).
  destruct (rep_flush f f' segs R Ef) as [segs' R'].
  rewrite (rep_layout f' segs' _ R').
  destruct R' as [Ed _]. rewrite Ed in Hd.
  cbv zeta.
  rewrite blobTable_encodeBlob, blobSegments_encodeBlob, blobSentinel_encodeBlob by exact Hd.
  rewrite tableEntries_encodeOffsets by (apply boundaries_range, Hd).
  rewrite len_encodeOffsets.
  split; [| split; [| split; [| split; [| split]]]].
  - rewrite Z.mul_comm. apply Z.mod_mul. lia.
  - reflexivity.
  - apply Sorted_adjacent. intros i Hi. apply boundaries_adjacent, Hi.
  - apply last_boundaries.
  - reflexivity.
  - apply boundaries_adjacent.
Qed.

(** C8. A whole-table writer on which [addKey] was never called returns the
    empty (nil) result from [finish], also after [finishBlock] calls, which
    change nothing.  A per-block writer on which neither [addKey] nor
    [finishBlock] was called returns from [finish] the 5 bytes of a sentinel
    of value 0 and the shift byte 11; the reader of that blob answers [true]
    for every block offset and key. *)
Theorem empty_writers (blockOffset : Z) (key : bytes) :
  0 <= blockOffset <= MaxUint64 ->
  tableFinish newTableFilterWriter = Ok [] /\
  (forall f b, tableFinishBlock f b = Ok f) /\
  let blob := [Byte.x00; Byte.x00; Byte.x00; Byte.x00; Byte.x0b] in
  finish newBlockFilterWriter = Ok blob /\
  exists r, newBlockFilterReader blob = Ret (Some r) /\
    mayContain r blob blockOffset key = Ret true.
Proof.
  intros HB.
  split; [reflexivity |]. split; [reflexivity |].
  cbv zeta. split; [reflexivity |].
  change [Byte.x00; Byte.x00; Byte.x00; Byte.x00; Byte.x0b]
    with (encodeBlob [] Byte.x0b).
  exists (blobReader [] Byte.x0b).
  split; [reflexivity |].
  rewrite mayContain_encodeBlob.
  - unfold segmentsMayContain.
    pose proof (shiftr_nonneg_le blockOffset (byte.unsigned Byte.x0b) (proj1 HB)
                  ltac:(apply byte.unsigned_range)) as Hidx.
    cbv zeta. rewrite Z.geb_leb.
    destruct (Z.leb_spec (len (@nil bytes)) (Z.shiftr blockOffset (byte.unsigned Byte.x0b)));
      [reflexivity |].
    change (len (@nil bytes)) with 0 in *. lia.
  - vm_compute. discriminate.
  - vm_compute. discriminate.
  - exact HB.
Qed.

End BlobClaims.

Section NoFalseNegativeClaim.

Context {P : FilterPolicy} `{!FinishAppends P} {S : NoFalseNegatives P}.

Lemma addedUnder_range (ops : list op) (cur : Z) (x : Z * bytes) :
  0 <= cur <= MaxUint64 ->
  monotone cur ops ->
  In x (addedUnder cur ops) ->
  0 <= fst x <= MaxUint64.
Proof.
  revert cur. induction ops as [| o ops IH]; intros cur Hcur Hm Hin;
    cbn [addedUnder monotone] in *; [contradiction |].
  destruct o as [key | blockOffset].
  - destruct Hin as [<- | Hin]; [exact Hcur | exact (IH cur Hcur Hm Hin)].
  - destruct Hm as [Hb Hm]. apply (IH blockOffset); [lia | exact Hm | exact Hin].
Qed.

(** C1, as amended. For every sequence of [addKey] and [finishBlock] calls
    whose block offsets do not decrease, after a successful [finish] the
    reader of the blob answers [true] to [mayContain(blockOffset, key)] for
    every key added under [blockOffset]: added after the call
    [finishBlock(blockOffset)] and before the next [finishBlock] call, with
    [blockOffset = 0] for the keys added before the first call.  The policy
    appends its filters and has no false negatives. *)
Theorem no_false_negatives (ops : list op) (f : blockFilterWriter) (blob : bytes)
    (blockOffset : Z) (key : bytes) :
  monotone 0 ops ->
  len ops <= MaxInt ->
  run ops newBlockFilterWriter = Some (Ok f) ->
  finish f = Ok blob ->
  len blob <= MaxInt ->
  In (blockOffset, key) (addedUnder 0 ops) ->
  exists r, newBlockFilterReader blob = Ret (Some r) /\
    mayContain r blob blockOffset key = Ret true.
Proof.
  intros Hm Hops Erun Efin Hblob Hin.
  pose proof (addedUnder_range ops 0 _ ltac:(unfold MaxUint64; lia) Hm Hin) as HB.
  cbn [fst] in HB.
  destruct (covered_run ops 0 newBlockFilterWriter f [] [] rep_new)
    as (segs & R & K & HG); try assumption; try reflexivity;
    try (cbn [newBlockFilterWriter count]; lia).
  { cbn [newBlockFilterWriter writer]. apply writerKind_NewWriter. }
  { constructor. }
  cbn [app] in HG.
  apply finish_Ok_inv in Efin. destruct Efin as (f' & Ef & Hd & ->).
  destruct (covered_flush f f' segs _ R K HG Ef) as (segs' & R' & HG').
  rewrite (rep_layout f' segs' _ R') in *.
  destruct R' as [Ed _]. rewrite Ed in Hd.
  exists (blobReader segs' (byte.of_Z filterBaseLog)).
  split; [apply newBlockFilterReader_encodeBlob, Hd |].
  rewrite mayContain_encodeBlob by assumption. f_equal.
  rewrite Forall_forall in HG'. specialize (HG' _ Hin).
  unfold good in HG'. cbv zeta in HG'. cbn [fst snd] in HG'.
  destruct HG' as [Hn Hg].
  unfold segmentsMayContain.
  change (byte.unsigned (byte.of_Z filterBaseLog)) with filterBaseLog.
  pose proof (shiftr_nonneg_le blockOffset filterBaseLog (proj1 HB)
                ltac:(unfold filterBaseLog; lia)) as Hidx.
  cbv zeta. rewrite Z.geb_leb.
  destruct (Z.leb_spec (len segs') (Z.shiftr blockOffset filterBaseLog)) as [Hi | Hi];
    [unfold len in Hi; lia |].
  destruct (Z.eqb_spec (len (nth (Z.to_nat (Z.shiftr blockOffset filterBaseLog)) segs' [])) 0)
    as [H0 | H0]; [reflexivity |].
  apply Hg. intros E0. rewrite E0 in H0. apply H0. reflexivity.
Qed.

End NoFalseNegativeClaim.

(** ** Counterexamples and instances *)

(** C1 as the specification states it fails: when each key is added before
    the [finishBlock] call of its block offset, the key ["a"] of the pair
    [("a", 2048)] is flushed into segment 0 by [finishBlock(2048)], and the
    query at 2048 reads segment 1, which holds the key ["c"] only. *)
Lemma no_false_negatives_spec_order_counterexample :
  monotone 0 (feedPairs specOrderPairs) /\
  (exists f,
     run (P := FirstBytePolicy) (feedPairs specOrderPairs) newBlockFilterWriter = Some (Ok f) /\
     finish f = Ok specOrderBlob) /\
  newBlockFilterReader specOrderBlob = Ret (Some specOrderReader) /\
  In (key_a, 2048) specOrderPairs /\
  mayContain (P := FirstBytePolicy) specOrderReader specOrderBlob 2048 key_a = Ret false.
Proof.
  split; [cbn; unfold MaxUint64; lia |].
  split; [eexists; split; [vm_compute; reflexivity | vm_compute; reflexivity] |].
  split; [vm_compute; reflexivity |].
  split; [left; reflexivity |].
  vm_compute. reflexivity.
Qed.

(** The end-to-end scenario of the specification: keys ["a"] and ["b"]
    before [finishBlock(0)], key ["c"] before [finishBlock(2048)].  All three
    keys land in segment 0, and the query at 2048 finds no segment 1 and
    answers [true]. *)
Example spec_scenario :
  let ops := feedPairs [(key_a, 0); (key_b, 0); (key_c, 2048)] in
  let blob := [Byte.x61; Byte.x62; Byte.x63;
               Byte.x00; Byte.x00; Byte.x00; Byte.x00;
               Byte.x03; Byte.x00; Byte.x00; Byte.x00;
               Byte.x0b] in
  let r := {| lastOffset := 3; shift := 11 |} in
  (exists f, run (P := FirstBytePolicy) ops newBlockFilterWriter = Some (Ok f) /\
     finish f = Ok blob) /\
  newBlockFilterReader blob = Ret (Some r) /\
  mayContain (P := FirstBytePolicy) r blob 0 key_a = Ret true /\
  mayContain (P := FirstBytePolicy) r blob 0 key_b = Ret true /\
  mayContain (P := FirstBytePolicy) r blob 2048 key_c = Ret true /\
  mayContain (P := FirstBytePolicy) r blob 0 [Byte.x7a] = Ret false.
Proof.
  cbv zeta.
  split; [eexists; split; [vm_compute; reflexivity | vm_compute; reflexivity] |].
  repeat split; vm_compute; reflexivity.
Qed.

(** C3 as the specification states it fails: [finishBlock(0)] on a new
    writer returns without error and has emitted no segment, fewer than
    [(0 >> 11) + 1]. *)
Lemma finishBlock_covering_segment_counterexample :
  finishBlock (P := FirstBytePolicy) newBlockFilterWriter 0 = Some (Ok newBlockFilterWriter) /\
  len (offsets (newBlockFilterWriter (P := FirstBytePolicy))) < Z.shiftr 0 filterBaseLog + 1.
Proof. split; reflexivity. Qed.

(** C1 on [sampleOps]: the key ["c"], added under the block offset 2048, is
    found by the query at 2048. *)
Lemma no_false_negatives_witness :
  monotone 0 sampleOps /\
  In (2048, key_c) (addedUnder 0 sampleOps) /\
  exists r, newBlockFilterReader sampleBlob = Ret (Some r) /\
    mayContain (P := FirstBytePolicy) r sampleBlob 2048 key_c = Ret true.
Proof.
  assert (Hm : monotone 0 sampleOps) by (cbn; unfold MaxUint64; lia).
  assert (Hin : In (2048, key_c) (addedUnder 0 sampleOps))
    by (right; right; left; reflexivity).
  split; [exact Hm |]. split; [exact Hin |].
  refine (no_false_negatives (P := FirstBytePolicy) (FinishAppends0 := FirstBytePolicy_appends)
            (S := FirstBytePolicy_sound) sampleOps sampleWriter sampleBlob 2048 key_c
            Hm _ _ _ _ Hin).
  - vm_compute. discriminate.
  - vm_compute. reflexivity.
  - vm_compute. reflexivity.
  - vm_compute. discriminate.
Defined.

(** C2 on [sampleBlob]: the query at 2048 is the policy's answer over the
    segment ["c"]. *)
Lemma mayContain_refines_witness :
  newBlockFilterReader sampleBlob = Ret (Some sampleReader) /\
  mayContain (P := FirstBytePolicy) sampleReader sampleBlob 2048 key_c =
  Ret (MayContain (FilterPolicy := FirstBytePolicy) BlockFilter [Byte.x63] key_c).
Proof.
  assert (Hnew : newBlockFilterReader sampleBlob = Ret (Some sampleReader))
    by (vm_compute; reflexivity).
  split; [exact Hnew |].
  assert (HD : len sampleBlob <= MaxInt) by (vm_compute; discriminate).
  assert (HB : 0 <= 2048 <= MaxUint64) by (unfold MaxUint64; lia).
  destruct (mayContain_refines (P := FirstBytePolicy) sampleReader sampleBlob 2048 key_c
              Hnew HD HB) as (_ & _ & _ & H).
  apply H; vm_compute; try reflexivity; discriminate.
Defined.

(** C10 on [sampleBlob]: the query at 2048 returns. *)
Lemma mayContain_in_bounds_witness :
  newBlockFilterReader sampleBlob = Ret (Some sampleReader) /\
  exists b, mayContain (P := FirstBytePolicy) sampleReader sampleBlob 2048 key_c = Ret b.
Proof.
  assert (Hnew : newBlockFilterReader sampleBlob = Ret (Some sampleReader))
    by (vm_compute; reflexivity).
  split; [exact Hnew |].
  assert (HD : len sampleBlob <= MaxInt) by (vm_compute; discriminate).
  assert (HB : 0 <= 2048 <= MaxUint64) by (unfold MaxUint64; lia).
  destruct (mayContain_in_bounds (P := FirstBytePolicy) sampleReader sampleBlob 2048 key_c
              Hnew HD HB) as (d & o & _ & _ & _ & H).
  exact H.
Defined.

(** C3 on a writer with one pending key: [finishBlock(4096)] leaves 2
    segments, those of the windows at 0 and at 2048. *)
Lemma finishBlock_emits_windows_before_witness :
  exists f',
    finishBlock (P := FirstBytePolicy) (addKey newBlockFilterWriter key_a) 4096 = Some (Ok f') /\
    len (offsets f') = 2.
Proof.
  eexists. split; [vm_compute; reflexivity |].
  refine (proj2 (finishBlock_emits_windows_before (P := FirstBytePolicy)
                   (addKey newBlockFilterWriter key_a) _ 4096 _)).
  vm_compute. reflexivity.
Defined.

(** C7 on [sampleOps]: the table of [sampleBlob] is 0, 2, 3. *)
Lemma offset_table_well_formed_witness :
  run (P := FirstBytePolicy) sampleOps newBlockFilterWriter = Some (Ok sampleWriter) /\
  finish sampleWriter = Ok sampleBlob /\
  tableEntries (blobTable sampleBlob) = [0; 2; 3] /\
  Sorted Z.le (tableEntries (blobTable sampleBlob)) /\
  blobSentinel sampleBlob = len (blobSegments sampleBlob).
Proof.
  split; [vm_compute; reflexivity |].
  split; [vm_compute; reflexivity |].
  split; [vm_compute; reflexivity |].
  destruct (offset_table_well_formed (P := FirstBytePolicy)
              (FinishAppends0 := FirstBytePolicy_appends) sampleOps sampleWriter sampleBlob)
    as (_ & _ & Hs & _ & He & _).
  - vm_compute. reflexivity.
  - vm_compute. reflexivity.
  - split; [exact Hs | exact He].
Defined.

(** C8 under [FirstBytePolicy], for the query at 4096. *)
Lemma empty_writers_witness :
  exists r,
    finish (P := FirstBytePolicy) newBlockFilterWriter =
      Ok [Byte.x00; Byte.x00; Byte.x00; Byte.x00; Byte.x0b] /\
    newBlockFilterReader [Byte.x00; Byte.x00; Byte.x00; Byte.x00; Byte.x0b] = Ret (Some r) /\
    mayContain (P := FirstBytePolicy) r
      [Byte.x00; Byte.x00; Byte.x00; Byte.x00; Byte.x0b] 4096 key_a = Ret true.
Proof.
  assert (HB : 0 <= 4096 <= MaxUint64) by (unfold MaxUint64; lia).
  destruct (empty_writers (P := FirstBytePolicy) 4096 key_a HB)
    as (_ & _ & Hf & r & Hr & Hm).
  exists r. split; [exact Hf |]. split; [exact Hr | exact Hm].
Defined.

(** C9 on [sampleWriter]: the reader of [sampleBlob] has shift 11 and last
    offset 3. *)
Lemma finish_blob_accepted_witness :
  run (P := FirstBytePolicy) sampleOps newBlockFilterWriter = Some (Ok sampleWriter) /\
  finish sampleWriter = Ok sampleBlob /\
  exists r, newBlockFilterReader sampleBlob = Ret (Some r) /\ shift r = 11 /\ lastOffset r = 3.
Proof.
  split; [vm_compute; reflexivity |].
  split; [vm_compute; reflexivity |].
  destruct (finish_blob_accepted (P := FirstBytePolicy) sampleWriter sampleBlob)
    as (r & f' & Hr & Hs & _ & Hseg & Hl).
  - vm_compute. reflexivity.
  - exists r. split; [exact Hr |]. split; [exact Hs |].
    rewrite Hl. vm_compute. reflexivity.
Defined.


(** * Further properties of the code *)

(** ** The whole-table writer and reader *)

Section TableWriter.

Context {P : FilterPolicy}.

Lemma keysOf_AddKey (key : bytes) (ops : list op) :
  keysOf (OpAddKey key :: ops) = key :: keysOf ops.
Proof. reflexivity. Qed.

Lemma keysOf_FinishBlock (blockOffset : Z) (ops : list op) :
  keysOf (OpFinishBlock blockOffset :: ops) = keysOf ops.
Proof. reflexivity. Qed.

(** A run of the whole-table writer feeds the keys to the policy's writer
    and counts them; the [finishBlock] calls change nothing. *)
Lemma tableRun_eq (ops : list op) (f : tableFilterWriter) :
  0 <= tcount f ->
  tcount f + len (keysOf ops) <= MaxInt ->
  tableRun ops f =
  Ok {| twriter := fold_left AddKey (keysOf ops) (twriter f);
        tcount := tcount f + len (keysOf ops) |}.
Proof.
  revert f. induction ops as [| o ops IH]; intros f H0 Hn.
  - cbn. destruct f as [w c]. cbn. rewrite Z.add_0_r. reflexivity.
  - destruct o as [key | blockOffset].
    + rewrite keysOf_AddKey, len_cons in *. pose proof (len_nonneg (keysOf ops)).
      cbn [tableRun fold_left].
      assert (E : tcount (tableAddKey f key) = tcount f + 1)
        by (cbn [tableAddKey tcount]; apply wrap_int_small; unfold MaxInt in *; lia).
      rewrite IH by lia. rewrite E. cbn [tableAddKey twriter].
      f_equal. f_equal. lia.
    + rewrite keysOf_FinishBlock in *. cbn [tableRun tableFinishBlock].
      apply IH; assumption.
Qed.

(** X2. A whole-table writer never fails, ignores the [finishBlock] calls,
    and returns from [finish] the empty result when no key was added and
    otherwise the filter that the policy's writer finishes, on an empty
    buffer, after all the keys in the order they were added. *)
Theorem tableRun_finish (ops : list op) :
  len (keysOf ops) <= MaxInt ->
  exists f,
    tableRun ops newTableFilterWriter = Ok f /\
    tableFinish f =
    Ok (match keysOf ops with
        | [] => []
        | _ :: _ => fst (Finish (fold_left AddKey (keysOf ops) (NewWriter TableFilter)) [])
        end).
Proof.
  intros Hn. eexists. split.
  - apply tableRun_eq; cbn [newTableFilterWriter tcount]; lia.
  - unfold tableFinish. cbn [tcount twriter newTableFilterWriter].
    destruct (keysOf ops) as [| k ks] eqn:E.
    + reflexivity.
    + rewrite len_cons. pose proof (len_nonneg ks).
      destruct (Z.eqb_spec (0 + (1 + len ks)) 0); [lia | reflexivity].
Qed.

End TableWriter.

Section TableNoFalseNegative.

Context {P : FilterPolicy} {S : NoFalseNegatives P}.

Lemma writerKind_fold (keys : list bytes) (w : FilterWriter) :
  writerKind (fold_left AddKey keys w) = writerKind w.
Proof.
  revert w. induction keys as [| k keys IH]; intros w; cbn [fold_left]; [reflexivity |].
  rewrite IH. apply writerKind_AddKey.
Qed.

Lemma pendingKeys_fold (keys : list bytes) (w : FilterWriter) (key : bytes) :
  In key keys \/ In key (pendingKeys w) ->
  In key (pendingKeys (fold_left AddKey keys w)).
Proof.
  revert w. induction keys as [| k keys IH]; intros w H; cbn [fold_left].
  - destruct H as [[] | H]. exact H.
  - apply IH. destruct H as [[-> | H] | H].
    + right. apply pendingKeys_AddKey. left. reflexivity.
    + left. exact H.
    + right. apply pendingKeys_AddKey. right. exact H.
Qed.

(** X1. The whole-table filter has no false negatives: after any sequence
    of [addKey] and [finishBlock] calls on a new whole-table writer, the
    reader's [mayContain] on the result of [finish] is [true] for every key
    that was added, when the policy has no false negatives. *)
Theorem table_no_false_negatives (ops : list op) (f : tableFilterWriter)
    (blob key : bytes) :
  len (keysOf ops) <= MaxInt ->
  tableRun ops newTableFilterWriter = Ok f ->
  tableFinish f = Ok blob ->
  In key (keysOf ops) ->
  tableMayContain blob key = true.
Proof.
  intros Hn Erun Efin Hin.
  rewrite tableRun_eq in Erun by (cbn [newTableFilterWriter tcount]; lia).
  injection Erun as <-.
  unfold tableFinish in Efin. cbn [tcount twriter newTableFilterWriter] in Efin.
  assert (Hpos : 0 < len (keysOf ops)).
  { destruct (keysOf ops); [contradiction |]. rewrite len_cons.
    pose proof (len_nonneg l). lia. }
  destruct (Z.eqb_spec (len (keysOf ops)) 0) as [H0 | H0]; [lia |].
  injection Efin as <-.
  unfold tableMayContain.
  set (w := fold_left AddKey (keysOf ops) (NewWriter TableFilter)).
  assert (K : writerKind w = TableFilter)
    by (subst w; rewrite writerKind_fold; apply writerKind_NewWriter).
  rewrite <- K. apply (Finish_sound w [] _ key); [reflexivity |].
  subst w. apply pendingKeys_fold. left. exact Hin.
Qed.

End TableNoFalseNegative.

(** ** The names of the meta blocks *)

(** X3. The name of the meta block of a per-block filter is ["filter."]
    before the policy's name and that of a whole-table filter is
    ["fullfilter."] before it: the two never coincide, whatever the
    policies, and each determines the policy's name. *)
Theorem metaName_separates (P Q : FilterPolicy) :
  String.eqb (@metaName P) (@tableMetaName Q) = false /\
  (@metaName P = @metaName Q <-> @policyName P = @policyName Q) /\
  (@tableMetaName P = @tableMetaName Q <-> @tablePolicyName P = @tablePolicyName Q).
Proof.
  unfold metaName, tableMetaName, policyName, tablePolicyName.
  split; [reflexivity |]. split.
  - split; [| intros ->; reflexivity].
    cbn [String.append]. intros H. injection H as H. exact H.
  - split; [| intros ->; reflexivity].
    cbn [String.append]. intros H. injection H as H. exact H.
Qed.

(** ** The reader on arbitrary data *)

Section ReaderEdges.

Context {P : FilterPolicy}.

Lemma Uint32_Panic (b : bytes) : len b < 4 -> Uint32 b = Panic.
Proof. intros H. unfold Uint32. destruct (Z.leb_spec 4 (len b)); [lia | reflexivity]. Qed.

(** On data too short for the reader's [lastOffset] and one table entry,
    [mayContain] panics: at one of the two slices of the data when not even
    the shift byte is left, and otherwise at the first 4-byte read. *)
Lemma mayContain_short (f : blockFilterReader) (D : bytes) (blockOffset : Z) (key : bytes) :
  0 <= lastOffset f ->
  len D < lastOffset f + 5 ->
  Z.shiftr blockOffset (shift f) < MaxUint64 ->
  mayContain f D blockOffset key = Panic.
Proof.
  intros HL Hshort Hidx. unfold mayContain.
  destruct (Z.le_gt_cases (lastOffset f) (len D)) as [H1 | H1].
  2: { assert (E : slice D 0 (lastOffset f) = Panic) by (apply slice_Panic; lia).
       rewrite E. reflexivity. }
  rewrite (slice_Ret D 0) by lia. cbn [go_bind].
  destruct (Z.le_gt_cases (lastOffset f) (len D - 1)) as [H2 | H2].
  2: { assert (E : slice D (lastOffset f) (len D - 1) = Panic) by (apply slice_Panic; lia).
       rewrite E. reflexivity. }
  rewrite (slice_Ret D (lastOffset f)) by lia. cbn [go_bind].
  set (tbl := firstn (Z.to_nat (len D - 1 - lastOffset f)) _).
  assert (Htbl : len tbl = len D - 1 - lastOffset f) by (subst tbl; apply len_slice; lia).
  rewrite Z.quot_small by lia.
  change (uint64_of_int (0 - 1)) with MaxUint64.
  rewrite Z.geb_leb.
  destruct (Z.leb_spec MaxUint64 (Z.shiftr blockOffset (shift f))); [lia |].
  set (a := wrap64 (wrap64 (4 * Z.shiftr blockOffset (shift f)) + 0)).
  unfold slice_from at 1.
  destruct (slice tbl a (len tbl)) as [lo |] eqn:E; [| reflexivity].
  apply slice_inv in E. destruct E as (Ha & _ & ->). cbn [go_bind].
  rewrite Uint32_Panic; [reflexivity |].
  rewrite len_slice by lia. lia.
Qed.

(** X4. [mayContain] reads the data it is given, not the blob its reader
    was constructed from: it panics exactly when that data is shorter than
    [lastOffset + 5] bytes, the room for the segment data, one table entry
    and the shift byte (for a [uint32] last offset and shift, data within
    Go's [int] range and a block offset whose index is not the largest
    [uint64]). *)
Theorem mayContain_panics_iff (f : blockFilterReader) (D : bytes)
    (blockOffset : Z) (key : bytes) :
  0 <= lastOffset f ->
  0 <= shift f ->
  len D <= MaxInt ->
  0 <= blockOffset <= MaxUint64 ->
  Z.shiftr blockOffset (shift f) < MaxUint64 ->
  (mayContain f D blockOffset key = Panic <-> len D < lastOffset f + 5).
Proof.
  intros HL Hsh HD HB Hidx. split.
  - intros E. destruct (Z.lt_ge_cases (len D) (lastOffset f + 5)) as [H | H]; [exact H |].
    rewrite mayContain_eq in E by lia. discriminate.
  - intros H. apply mayContain_short; assumption.
Qed.

(** With no segment data, every query is open. *)
Lemma mayContain_no_data (f : blockFilterReader) (D : bytes) (blockOffset : Z) (key : bytes) :
  lastOffset f = 0 ->
  0 <= shift f ->
  5 <= len D <= MaxInt ->
  0 <= blockOffset <= MaxUint64 ->
  mayContain f D blockOffset key = Ret true.
Proof.
  intros HL Hsh HD HB. rewrite mayContain_eq by lia. f_equal.
  unfold mayContain_spec. rewrite HL. cbv zeta. cbn [Z.to_nat firstn skipn].
  set (tbl := firstn _ D).
  destruct (Z.shiftr blockOffset (shift f) >=? numSegments tbl); [reflexivity |].
  pose proof (tableEntry_range tbl (Z.shiftr blockOffset (shift f))) as Ri.
  pose proof (tableEntry_range tbl (Z.shiftr blockOffset (shift f) + 1)) as Rj.
  change (len (@nil byte)) with 0.
  rewrite Z.geb_leb, Z.gtb_ltb.
  destruct (Z.leb_spec (tableEntry tbl (Z.shiftr blockOffset (shift f) + 1))
                       (tableEntry tbl (Z.shiftr blockOffset (shift f)))); [reflexivity |].
  destruct (Z.ltb_spec 0 (tableEntry tbl (Z.shiftr blockOffset (shift f) + 1)));
    [reflexivity | lia].
Qed.

Lemma skipn_last (D : bytes) (n : nat) :
  S n = List.length D -> skipn n D = [nth n D Byte.x00].
Proof.
  revert D. induction n as [| n IH]; intros D Hn.
  - destruct D as [| b [| c D]]; cbn [List.length] in Hn; try lia. reflexivity.
  - destruct D as [| b D]; cbn [List.length] in Hn; [lia |].
    cbn [skipn nth]. apply IH. lia.
Qed.

(** X11. A blob that the constructor accepts is the three parts of the
    layout and nothing else: it is its segment data, then its offset table,
    then its shift byte; the table has at least one entry, and its last
    entry, the sentinel, is the reader's [lastOffset]. *)
Theorem accepted_blob_layout (D : bytes) (f : blockFilterReader) :
  newBlockFilterReader D = Ret (Some f) ->
  D = blobSegments D ++ blobTable D ++ [byte.of_Z (shift f)] /\
  len (blobSegments D) = lastOffset f /\
  0 <= numSegments (blobTable D) /\
  len (blobTable D) = 4 * (numSegments (blobTable D) + 1) /\
  tableEntry (blobTable D) (numSegments (blobTable D)) = lastOffset f.
Proof.
  intros Hnew. apply newBlockFilterReader_Some in Hnew.
  destruct Hnew as (H5 & EL & Esh & HL & Hmod).
  unfold blobSegments, blobTable. rewrite <- EL.
  set (L := lastOffset f) in *.
  set (T := len D - 1 - L).
  assert (HT : 4 <= T) by (subst T; lia).
  assert (Hseg : len (firstn (Z.to_nat L) D) = L) by (apply len_firstn; lia).
  assert (Htbl : len (firstn (Z.to_nat T) (skipn (Z.to_nat L) D)) = T)
    by (subst T; apply len_slice; lia).
  assert (HN : T = 4 * (T / 4)).
  { pose proof (Z.div_mod T 4 ltac:(lia)) as E. fold T in Hmod. lia. }
  split; [| split; [exact Hseg | split; [| split]]].
  - rewrite <- (firstn_skipn (Z.to_nat L) D) at 1. f_equal.
    rewrite <- (firstn_skipn (Z.to_nat T) (skipn (Z.to_nat L) D)) at 1. f_equal.
    rewrite skipn_skipn.
    replace (Z.to_nat T + Z.to_nat L)%nat with (Z.to_nat (len D - 1)) by (subst T; lia).
    rewrite Esh. unfold blobShift. rewrite byte.of_Z_unsigned.
    apply skipn_last. unfold len in *. lia.
  - unfold numSegments. rewrite Htbl. lia.
  - unfold numSegments. rewrite Htbl. lia.
  - unfold numSegments, tableEntry. rewrite Htbl.
    replace (4 * (T / 4 - 1)) with (T - 4) by lia.
    rewrite skipn_firstn_comm.
    replace (Z.to_nat T - Z.to_nat (T - 4))%nat with 4%nat by lia.
    rewrite skipn_skipn.
    replace (Z.to_nat (T - 4) + Z.to_nat L)%nat with (Z.to_nat (len D - 5)) by (subst T; lia).
    rewrite firstn_firstn. change (Nat.min 4 4) with 4%nat.
    rewrite EL. reflexivity.
Qed.

End ReaderEdges.

(** ** Calls of finishBlock *)

Section FinishBlockCalls.

Context {P : FilterPolicy}.

Lemma emits_add (n m : nat) (f : blockFilterWriter) :
  emits (n + m) f =
  match emits n f with
  | Ok f' => emits m f'
  | Err e => Err e
  end.
Proof.
  revert f. induction n as [| n IH]; intros f; cbn [emits Nat.add]; [reflexivity |].
  destruct (emit f) as [f1 | e]; [apply IH | reflexivity].
Qed.

(** X5. A [finishBlock] call whose window index is not beyond the segments
    already emitted does nothing and returns no error, whatever the state of
    the writer; so a call repeated, or made again with a smaller block
    offset, after one that returned without error, changes nothing. *)
Theorem finishBlock_stale (f f' : blockFilterWriter) (blockOffset blockOffset' : Z) :
  (Z.shiftr blockOffset' filterBaseLog <= len (offsets f) ->
   finishBlock f blockOffset' = Some (Ok f)) /\
  (finishBlock f blockOffset = Some (Ok f') ->
   Z.shiftr blockOffset' filterBaseLog <= Z.shiftr blockOffset filterBaseLog ->
   finishBlock f' blockOffset' = Some (Ok f')).
Proof.
  assert (G : forall g b, Z.shiftr b filterBaseLog <= len (offsets g) ->
                          finishBlock g b = Some (Ok g)).
  { intros g b H. rewrite finishBlock_unfold, Z.gtb_ltb.
    destruct (Z.ltb_spec (len (offsets g)) (Z.shiftr b filterBaseLog)); [lia | reflexivity]. }
  split; [apply G |].
  intros E H. apply G. apply finishBlock_offsets in E. lia.
Qed.

(** X6. Two [finishBlock] calls in a row, the second with a window index
    that is not smaller, are the one call with the second block offset: the
    same state, or the same error when one of the emissions fails. *)
Theorem finishBlock_compose (f : blockFilterWriter) (blockOffset1 blockOffset2 : Z) :
  Z.shiftr blockOffset1 filterBaseLog <= Z.shiftr blockOffset2 filterBaseLog ->
  match finishBlock f blockOffset1 with
  | Some (Ok f1) => finishBlock f1 blockOffset2
  | r => r
  end = finishBlock f blockOffset2.
Proof.
  intros H. rewrite (finishBlock_emits f blockOffset1), (finishBlock_emits f blockOffset2).
  set (i1 := Z.shiftr blockOffset1 filterBaseLog) in *.
  set (i2 := Z.shiftr blockOffset2 filterBaseLog) in *.
  set (n1 := Z.to_nat (i1 - len (offsets f))).
  replace (Z.to_nat (i2 - len (offsets f)))
    with (n1 + (Z.to_nat (i2 - len (offsets f)) - n1))%nat by (subst n1; lia).
  rewrite emits_add.
  destruct (emits n1 f) as [f1 | e] eqn:E; [| reflexivity].
  rewrite finishBlock_emits. fold i2. f_equal. f_equal.
  apply emits_offsets in E. subst n1. lia.
Qed.

(** With no key pending, [n] emissions record [n] times the length of the
    data. *)
Lemma emits_no_keys (n : nat) (f : blockFilterWriter) :
  hasKeys f = false ->
  len (data f) <= MaxUint32 ->
  emits n f =
  Ok {| writer := writer f; count := count f; data := data f;
        offsets := offsets f ++ repeat (len (data f)) n |}.
Proof.
  revert f. induction n as [| n IH]; intros f Hk Hd.
  - cbn [emits repeat]. rewrite app_nil_r. destruct f; reflexivity.
  - cbn [emits repeat]. rewrite emit_Ok by exact Hd. rewrite Hk.
    rewrite IH by (cbn [hasKeys count data]; assumption).
    cbn [writer count data offsets]. rewrite <- app_assoc. reflexivity.
Qed.

Lemma emit_count (f f' : blockFilterWriter) : emit f = Ok f' -> count f' = 0.
Proof.
  intros E. apply emit_Ok_inv in E. destruct E as (_ & _ & C).
  unfold hasKeys in C. destruct (Z.eqb_spec (count f) 0) as [H0 | H0]; cbn [negb] in C.
  - destruct C as (_ & _ & ->). exact H0.
  - destruct C as (_ & _ & ->). reflexivity.
Qed.

Lemma emits_count (n : nat) (f f' : blockFilterWriter) :
  emits (S n) f = Ok f' -> count f' = 0.
Proof.
  revert f. induction n as [| n IH]; intros f E; cbn [emits] in E.
  - destruct (emit f) as [f1 |] eqn:E1; [| discriminate].
    injection E as <-. exact (emit_count f f1 E1).
  - destruct (emit f) as [f1 |] eqn:E1; [| discriminate].
    apply (IH f1). cbn [emits]. exact E.
Qed.

End FinishBlockCalls.

(** ** Whole runs of the per-block writer *)

Section BlockRuns.

Context {P : FilterPolicy}.

(** The number of offsets and the count of the writer follow [summary]. *)
Lemma run_summary (ops : list op) (f f' : blockFilterWriter) :
  0 <= count f ->
  count f + len ops <= MaxInt ->
  run ops f = Some (Ok f') ->
  (len (offsets f'), count f') = summary (len (offsets f)) (count f) ops.
Proof.
  revert f. induction ops as [| o ops IH]; intros f H0 Hn E; cbn [run summary] in *.
  - injection E as <-. reflexivity.
  - rewrite len_cons in Hn. pose proof (len_nonneg ops).
    destruct o as [key | blockOffset].
    + assert (Ec : count (addKey f key) = count f + 1)
        by (cbn [addKey count]; apply wrap_int_small; unfold MaxInt in *; lia).
      rewrite (IH (addKey f key)) by (try exact E; lia).
      rewrite Ec. reflexivity.
    + destruct (finishBlock f blockOffset) as [[f1 | e] |] eqn:E1; try discriminate.
      pose proof (finishBlock_offsets f f1 blockOffset E1) as Eo.
      rewrite Z.gtb_ltb.
      destruct (Z.ltb_spec (len (offsets f)) (Z.shiftr blockOffset filterBaseLog)) as [Hi | Hi].
      * rewrite finishBlock_emits in E1. injection E1 as E1.
        replace (Z.to_nat (Z.shiftr blockOffset filterBaseLog - len (offsets f)))
          with (S (Z.to_nat (Z.shiftr blockOffset filterBaseLog - len (offsets f) - 1)))
          in E1 by lia.
        apply emits_count in E1.
        rewrite (IH f1) by (try exact E; lia).
        rewrite E1. f_equal. lia.
      * rewrite finishBlock_unfold, Z.gtb_ltb in E1.
        destruct (Z.ltb_spec (len (offsets f)) (Z.shiftr blockOffset filterBaseLog));
          [lia |].
        injection E1 as <-. apply IH; try assumption. lia.
Qed.

(** X8. After a sequence of calls on a new writer, the number of offsets
    and the count of pending keys are those of [summary]: each [finishBlock]
    beyond the emitted segments brings their number to its window index and
    leaves no key pending.  The blob of [finish] has one more segment when
    keys are pending, and its length is that of its segment data, 4 bytes
    for each segment and for the sentinel, and the shift byte. *)
Theorem blob_segment_count (ops : list op) (f : blockFilterWriter) (blob : bytes) :
  len ops <= MaxInt ->
  run ops newBlockFilterWriter = Some (Ok f) ->
  finish f = Ok blob ->
  (len (offsets f), count f) = summary 0 0 ops /\
  numSegments (blobTable blob) =
    fst (summary 0 0 ops) + (if snd (summary 0 0 ops) =? 0 then 0 else 1) /\
  len blob = len (blobSegments blob) + 4 * (numSegments (blobTable blob) + 1) + 1.
Proof.
  intros Hn Erun Efin.
  pose proof (run_summary ops newBlockFilterWriter f) as ES.
  cbn [newBlockFilterWriter count offsets] in ES.
  specialize (ES ltac:(lia) ltac:(lia) Erun). change (len (@nil Z)) with 0 in ES.
  split; [exact ES |].
  rewrite <- ES. cbn [fst snd].
  apply finish_Ok_inv in Efin. destruct Efin as (f' & Ef & Hd & ->).
  rewrite blobTable_layout, blobSegments_layout, len_layout by exact Hd.
  unfold numSegments. rewrite len_encodeOffsets, len_app.
  change (len [len (data f')]) with 1.
  replace (4 * (len (offsets f') + 1)) with ((len (offsets f') + 1) * 4) by lia.
  rewrite Z.div_mul by lia.
  split; [| lia].
  unfold flush, hasKeys in Ef.
  destruct (Z.eqb_spec (count f) 0) as [H0 | H0]; cbn [negb] in Ef.
  - injection Ef as <-. lia.
  - apply emit_Ok_inv in Ef. destruct Ef as (_ & Eo & _).
    rewrite Eo, len_app. change (len [len (data f)]) with 1. lia.
Qed.

(** A run without keys succeeds and leaves the writer without data. *)
Lemma run_keyless (ops : list op) (f : blockFilterWriter) :
  keysOf ops = [] ->
  count f = 0 ->
  data f = [] ->
  exists f', run ops f = Some (Ok f') /\ count f' = 0 /\ data f' = [].
Proof.
  revert f. induction ops as [| o ops IH]; intros f Hk Hc Hd; cbn [run].
  - exists f. repeat split; assumption.
  - destruct o as [key | blockOffset].
    + rewrite keysOf_AddKey in Hk. discriminate.
    + rewrite keysOf_FinishBlock in Hk.
      rewrite finishBlock_emits, emits_no_keys.
      * apply IH; [exact Hk | exact Hc | exact Hd].
      * unfold hasKeys. rewrite Hc. reflexivity.
      * rewrite Hd. vm_compute. discriminate.
Qed.

(** X9. A per-block writer that is given no key never fails, whatever
    [finishBlock] calls it receives; its blob has no segment data, the
    constructor accepts it, and its reader answers [true] to every query. *)
Theorem keyless_blob_open (ops : list op) :
  keysOf ops = [] ->
  exists f blob r,
    run ops newBlockFilterWriter = Some (Ok f) /\
    finish f = Ok blob /\
    blobSegments blob = [] /\
    newBlockFilterReader blob = Ret (Some r) /\
    forall blockOffset key,
      len blob <= MaxInt ->
      0 <= blockOffset <= MaxUint64 ->
      mayContain r blob blockOffset key = Ret true.
Proof.
  intros Hk.
  destruct (run_keyless ops newBlockFilterWriter Hk eq_refl eq_refl) as (f & Erun & Hc & Hd).
  assert (Hlen : len (data f) <= MaxUint32) by (rewrite Hd; vm_compute; discriminate).
  assert (Efin : finish f = Ok (layout (data f) (offsets f) (byte.of_Z filterBaseLog))).
  { rewrite finish_eq. unfold flush, hasKeys. rewrite Hc. cbn [Z.eqb negb].
    destruct (Z.leb_spec (len (data f)) MaxUint32); [reflexivity | lia]. }
  exists f, (layout (data f) (offsets f) (byte.of_Z filterBaseLog)).
  eexists.
  split; [exact Erun |]. split; [exact Efin |].
  split; [rewrite blobSegments_layout by exact Hlen; exact Hd |].
  split.
  - rewrite newBlockFilterReader_eq, blobInvalidb_layout by exact Hlen. reflexivity.
  - intros blockOffset key HD HB. apply mayContain_no_data.
    + cbn [lastOffset]. rewrite blobSentinel_layout by exact Hlen. rewrite Hd. reflexivity.
    + cbn [shift]. apply blobShift_range.
    + split; [| exact HD]. rewrite len_layout.
      pose proof (len_nonneg (data f)). pose proof (len_nonneg (offsets f)). lia.
    + exact HB.
Qed.

(** X10. What [finish] writes is read back as it was: for a writer with no
    pending key and [uint32] offsets, the segment data of the blob is the
    writer's data, the entries of its offset table are the writer's offsets
    followed by the length of the data, and its shift byte is 11. *)
Theorem finish_roundtrip (f : blockFilterWriter) (blob : bytes) :
  hasKeys f = false ->
  Forall (fun x => 0 <= x <= MaxUint32) (offsets f) ->
  finish f = Ok blob ->
  blobSegments blob = data f /\
  tableEntries (blobTable blob) = offsets f ++ [len (data f)] /\
  blobShift blob = filterBaseLog.
Proof.
  intros Hk HF Efin. apply finish_Ok_inv in Efin. destruct Efin as (f' & Ef & Hd & ->).
  unfold flush in Ef. rewrite Hk in Ef. injection Ef as <-.
  rewrite blobSegments_layout, blobTable_layout, blobShift_layout by exact Hd.
  split; [reflexivity |]. split; [| reflexivity].
  apply tableEntries_encodeOffsets. apply Forall_app. split; [exact HF |].
  constructor; [| constructor]. pose proof (len_nonneg (data f)). lia.
Qed.

(** A run on one window emits nothing. *)
Lemma run_one_window (ops : list op) (f : blockFilterWriter) :
  Forall (fun o => match o with
                   | OpAddKey _ => True
                   | OpFinishBlock b => Z.shiftr b filterBaseLog <= len (offsets f)
                   end) ops ->
  0 <= count f ->
  count f + len (keysOf ops) <= MaxInt ->
  run ops f =
  Some (Ok {| writer := fold_left AddKey (keysOf ops) (writer f);
              count := count f + len (keysOf ops);
              data := data f; offsets := offsets f |}).
Proof.
  revert f. induction ops as [| o ops IH]; intros f HF H0 Hn; cbn [run].
  - cbn. rewrite Z.add_0_r. destruct f; reflexivity.
  - inversion HF as [| o' ops' Ho HF' Eq]; subst o' ops'.
    destruct o as [key | blockOffset].
    + rewrite keysOf_AddKey, len_cons in *. pose proof (len_nonneg (keysOf ops)).
      assert (Ec : count (addKey f key) = count f + 1)
        by (cbn [addKey count]; apply wrap_int_small; unfold MaxInt in *; lia).
      rewrite IH; [| exact HF' | lia | lia].
      rewrite Ec. cbn [addKey writer data offsets fold_left].
      f_equal. f_equal. f_equal. lia.
    + rewrite keysOf_FinishBlock in *.
      rewrite finishBlock_unfold, Z.gtb_ltb.
      destruct (Z.ltb_spec (len (offsets f)) (Z.shiftr blockOffset filterBaseLog)); [lia |].
      apply IH; assumption.
Qed.

(** X12. When every block offset is below 2048, all keys share the one
    window 0: the [finishBlock] calls emit nothing, and [finish] writes a
    single segment, the filter that the policy's writer finishes on an empty
    buffer after all the keys, between the offsets 0 and its length; it
    fails when that filter is longer than [2^32 - 1] bytes. *)
Theorem one_window_blob (ops : list op) :
  Forall (fun o => match o with
                   | OpAddKey _ => True
                   | OpFinishBlock b => 0 <= b < 2048
                   end) ops ->
  1 <= len (keysOf ops) <= MaxInt ->
  exists f,
    run ops newBlockFilterWriter = Some (Ok f) /\
    offsets f = [] /\
    finish f =
    (let F := fst (Finish (fold_left AddKey (keysOf ops) (NewWriter BlockFilter)) []) in
     if len F <=? MaxUint32
     then Ok (F ++ PutUint32 0 ++ PutUint32 (len F) ++ [Byte.x0b])
     else Err errTooLong).
Proof.
  intros HF Hn. eexists. split.
  - apply run_one_window; cbn [newBlockFilterWriter count offsets]; try lia.
    eapply Forall_impl; [| exact HF]. intros [key | b]; [trivial |].
    intros Hb. change (len (@nil Z)) with 0.
    rewrite Z.shiftr_div_pow2 by (unfold filterBaseLog; lia).
    change (2 ^ filterBaseLog) with 2048. rewrite Z.div_small by lia. lia.
  - cbn [offsets newBlockFilterWriter]. split; [reflexivity |].
    rewrite finish_eq. unfold flush, hasKeys. cbn [count data writer offsets newBlockFilterWriter].
    destruct (Z.eqb_spec (0 + len (keysOf ops)) 0) as [H0 | H0]; [lia |]. cbn [negb].
    rewrite emit_Ok by (cbn [data]; vm_compute; discriminate).
    unfold hasKeys. cbn [count data writer offsets].
    destruct (Z.eqb_spec (0 + len (keysOf ops)) 0) as [H1 | H1]; [lia |]. cbn [negb].
    cbn [count data writer offsets]. cbv zeta.
    destruct (len (fst (Finish (fold_left AddKey (keysOf ops) (NewWriter BlockFilter)) []))
              <=? MaxUint32); [| reflexivity].
    reflexivity.
Qed.

End BlockRuns.

(** ** The writer only appends *)

Section AppendOnly.

Context {P : FilterPolicy} `{!FinishAppends P}.

Lemma extends_refl (f : blockFilterWriter) : extends f f.
Proof.
  exists [], []. rewrite !app_nil_r. repeat split. constructor.
Qed.

Lemma extends_len (f f' : blockFilterWriter) :
  extends f f' -> len (data f) <= len (data f').
Proof.
  intros (d & o & Ed & _ & _). rewrite Ed, len_app. pose proof (len_nonneg d). lia.
Qed.

Lemma extends_trans (f g h : blockFilterWriter) :
  extends f g -> extends g h -> extends f h.
Proof.
  intros Hfg Hgh.
  pose proof (extends_len f g Hfg) as L1. pose proof (extends_len g h Hgh) as L2.
  destruct Hfg as (d1 & o1 & Ed1 & Eo1 & F1). destruct Hgh as (d2 & o2 & Ed2 & Eo2 & F2).
  exists (d1 ++ d2), (o1 ++ o2).
  split; [rewrite Ed2, Ed1, app_assoc; reflexivity |].
  split; [rewrite Eo2, Eo1, app_assoc; reflexivity |].
  apply Forall_app. split.
  - eapply Forall_impl; [| exact F1]. cbv beta. intros x Hx. lia.
  - eapply Forall_impl; [| exact F2]. cbv beta. intros x Hx. lia.
Qed.

Lemma extends_addKey (f : blockFilterWriter) (key : bytes) : extends f (addKey f key).
Proof.
  exists [], []. cbn [addKey data offsets]. rewrite !app_nil_r. repeat split. constructor.
Qed.

Lemma extends_emit (f f' : blockFilterWriter) : emit f = Ok f' -> extends f f'.
Proof.
  intros E. apply emit_Ok_inv in E. destruct E as (_ & Eo & C).
  assert (Hd : exists d, data f' = data f ++ d).
  { destruct (hasKeys f).
    - destruct C as (Ed & _ & _).
      destruct (finish_appends (writer f) (data f)) as [s Es].
      exists s. congruence.
    - destruct C as (Ed & _ & _). exists []. rewrite app_nil_r. exact Ed. }
  destruct Hd as [d Ed]. exists d, [len (data f)].
  split; [exact Ed |]. split; [exact Eo |].
  constructor; [| constructor].
  rewrite Ed, len_app. pose proof (len_nonneg d). lia.
Qed.

Lemma extends_emits (n : nat) (f f' : blockFilterWriter) :
  emits n f = Ok f' -> extends f f'.
Proof.
  revert f. induction n as [| n IH]; intros f E; cbn [emits] in E.
  - injection E as <-. apply extends_refl.
  - destruct (emit f) as [f1 |] eqn:E1; [| discriminate].
    exact (extends_trans f f1 f' (extends_emit f f1 E1) (IH f1 E)).
Qed.

(** X7. The per-block writer only appends: after any sequence of calls
    that returns without error, from any state, the data and the offsets
    are those of before with more at the end, a recorded offset or a
    finished segment is never changed, and every new offset lies between
    the lengths of the data before and after.  The policy appends its
    filters. *)
Theorem run_append_only (ops : list op) (f f' : blockFilterWriter) :
  run ops f = Some (Ok f') ->
  exists d o,
    data f' = data f ++ d /\
    offsets f' = offsets f ++ o /\
    Forall (fun x => len (data f) <= x <= len (data f')) o.
Proof.
  change (run ops f = Some (Ok f') -> extends f f').
  revert f. induction ops as [| o ops IH]; intros f E; cbn [run] in E.
  - injection E as <-. apply extends_refl.
  - destruct o as [key | blockOffset].
    + exact (extends_trans f _ f' (extends_addKey f key) (IH _ E)).
    + destruct (finishBlock f blockOffset) as [[f1 | e] |] eqn:E1; try discriminate.
      rewrite finishBlock_emits in E1. injection E1 as E1.
      exact (extends_trans f f1 f' (extends_emits _ f f1 E1) (IH f1 E)).
Qed.

End AppendOnly.

(** ** Instances of the further properties *)

(** X1 on [sampleOps]: the key ["b"] is found in the whole-table filter. *)
Lemma table_no_false_negatives_witness :
  In key_b (keysOf sampleOps) /\
  tableMayContain (P := FirstBytePolicy) [Byte.x61; Byte.x62; Byte.x63] key_b = true.
Proof.
  assert (Hin : In key_b (keysOf sampleOps)) by (right; left; reflexivity).
  split; [exact Hin |].
  refine (table_no_false_negatives (P := FirstBytePolicy) (S := FirstBytePolicy_sound)
            sampleOps {| twriter := (TableFilter, [key_c; key_b; key_a]) : @FilterWriter FirstBytePolicy;
                         tcount := 3 |}
            _ key_b _ _ _ Hin).
  - vm_compute. discriminate.
  - vm_compute. reflexivity.
  - vm_compute. reflexivity.
Defined.

(** X2 on [sampleOps]: the whole-table filter of the three keys. *)
Lemma tableRun_finish_witness :
  exists f,
    tableRun (P := FirstBytePolicy) sampleOps newTableFilterWriter = Ok f /\
    tableFinish f = Ok [Byte.x61; Byte.x62; Byte.x63].
Proof.
  refine (tableRun_finish (P := FirstBytePolicy) sampleOps _).
  vm_compute. discriminate.
Defined.

(** X4 on the first three bytes of [sampleBlob]: too short for the last
    offset 3 of [sampleReader]. *)
Lemma mayContain_panics_iff_witness :
  len [Byte.x61; Byte.x62; Byte.x63] < lastOffset sampleReader + 5 /\
  mayContain (P := FirstBytePolicy) sampleReader [Byte.x61; Byte.x62; Byte.x63] 2048 key_c
  = Panic.
Proof.
  assert (H : len [Byte.x61; Byte.x62; Byte.x63] < lastOffset sampleReader + 5)
    by reflexivity.
  split; [exact H |].
  refine (proj2 (mayContain_panics_iff (P := FirstBytePolicy) sampleReader
                   [Byte.x61; Byte.x62; Byte.x63] 2048 key_c _ _ _ _ _) H).
  - vm_compute. discriminate.
  - vm_compute. discriminate.
  - vm_compute. discriminate.
  - split; vm_compute; discriminate.
  - reflexivity.
Defined.

(** X5 on a writer with one pending key: after [finishBlock(4096)], the
    call [finishBlock(2048)] changes nothing. *)
Lemma finishBlock_stale_witness :
  finishBlock (P := FirstBytePolicy) (addKey newBlockFilterWriter key_a) 4096
    = Some (Ok {| writer := (BlockFilter, []) : @FilterWriter FirstBytePolicy;
                  count := 0; data := [Byte.x61]; offsets := [0; 1] |}) /\
  finishBlock (P := FirstBytePolicy)
    {| writer := (BlockFilter, []) : @FilterWriter FirstBytePolicy;
       count := 0; data := [Byte.x61]; offsets := [0; 1] |} 2048
    = Some (Ok {| writer := (BlockFilter, []) : @FilterWriter FirstBytePolicy;
                  count := 0; data := [Byte.x61]; offsets := [0; 1] |}).
Proof.
  assert (E : finishBlock (P := FirstBytePolicy) (addKey newBlockFilterWriter key_a) 4096
              = Some (Ok {| writer := (BlockFilter, []) : @FilterWriter FirstBytePolicy;
                            count := 0; data := [Byte.x61]; offsets := [0; 1] |}))
    by (vm_compute; reflexivity).
  split; [exact E |].
  refine (proj2 (finishBlock_stale (P := FirstBytePolicy) _ _ 4096 2048) E _).
  vm_compute. discriminate.
Defined.

(** X6 on a writer with one pending key: [finishBlock(2048)] then
    [finishBlock(4096)] is [finishBlock(4096)]. *)
Lemma finishBlock_compose_witness :
  Z.shiftr 2048 filterBaseLog < Z.shiftr 4096 filterBaseLog /\
  match finishBlock (P := FirstBytePolicy) (addKey newBlockFilterWriter key_a) 2048 with
  | Some (Ok f1) => finishBlock f1 4096
  | r => r
  end = finishBlock (addKey newBlockFilterWriter key_a) 4096.
Proof.
  split; [reflexivity |].
  refine (finishBlock_compose (P := FirstBytePolicy) (addKey newBlockFilterWriter key_a)
            2048 4096 _).
  vm_compute. discriminate.
Defined.

(** X7 on [sampleOps]: the run adds the data ["abc"] and the offsets 0
    and 2 to the new writer. *)
Lemma run_append_only_witness :
  run (P := FirstBytePolicy) sampleOps newBlockFilterWriter = Some (Ok sampleWriter) /\
  exists d o,
    data sampleWriter = data (newBlockFilterWriter (P := FirstBytePolicy)) ++ d /\
    offsets sampleWriter = offsets (newBlockFilterWriter (P := FirstBytePolicy)) ++ o /\
    Forall (fun x => len (data (newBlockFilterWriter (P := FirstBytePolicy))) <= x
                     <= len (data sampleWriter)) o.
Proof.
  assert (E : run (P := FirstBytePolicy) sampleOps newBlockFilterWriter = Some (Ok sampleWriter))
    by (vm_compute; reflexivity).
  split; [exact E |].
  exact (run_append_only (P := FirstBytePolicy) (FinishAppends0 := FirstBytePolicy_appends)
           sampleOps newBlockFilterWriter sampleWriter E).
Defined.

(** X8 on [sampleOps]: 2 segments and no pending key. *)
Lemma blob_segment_count_witness :
  summary 0 0 sampleOps = (2, 0) /\
  numSegments (blobTable sampleBlob) = 2 /\
  len sampleBlob = 16.
Proof.
  destruct (blob_segment_count (P := FirstBytePolicy) sampleOps sampleWriter sampleBlob)
    as (_ & H2 & H3).
  - vm_compute. discriminate.
  - vm_compute. reflexivity.
  - vm_compute. reflexivity.
  - split; [reflexivity |]. split; [exact H2 | exact H3].
Defined.

(** X9 on the calls [finishBlock(0)], [finishBlock(4096)]. *)
Lemma keyless_blob_open_witness :
  keysOf [OpFinishBlock 0; OpFinishBlock 4096] = [] /\
  exists f blob r,
    run (P := FirstBytePolicy) [OpFinishBlock 0; OpFinishBlock 4096] newBlockFilterWriter
      = Some (Ok f) /\
    finish f = Ok blob /\
    blobSegments blob = [] /\
    newBlockFilterReader blob = Ret (Some r) /\
    forall blockOffset key,
      len blob <= MaxInt ->
      0 <= blockOffset <= MaxUint64 ->
      mayContain (P := FirstBytePolicy) r blob blockOffset key = Ret true.
Proof.
  split; [reflexivity |].
  exact (keyless_blob_open (P := FirstBytePolicy) [OpFinishBlock 0; OpFinishBlock 4096] eq_refl).
Defined.

(** X10 on [sampleWriter]: the table of [sampleBlob] is its offsets 0 and 2
    and the length 3 of its data. *)
Lemma finish_roundtrip_witness :
  finish sampleWriter = Ok sampleBlob /\
  blobSegments sampleBlob = data sampleWriter /\
  tableEntries (blobTable sampleBlob) = offsets sampleWriter ++ [len (data sampleWriter)] /\
  blobShift sampleBlob = filterBaseLog.
Proof.
  assert (E : finish sampleWriter = Ok sampleBlob) by (vm_compute; reflexivity).
  split; [exact E |].
  refine (finish_roundtrip (P := FirstBytePolicy) sampleWriter sampleBlob _ _ E).
  - reflexivity.
  - repeat constructor; vm_compute; discriminate.
Defined.

(** X11 on [sampleBlob]. *)
Lemma accepted_blob_layout_witness :
  newBlockFilterReader sampleBlob = Ret (Some sampleReader) /\
  sampleBlob = blobSegments sampleBlob ++ blobTable sampleBlob ++ [byte.of_Z (shift sampleReader)] /\
  tableEntry (blobTable sampleBlob) (numSegments (blobTable sampleBlob)) = lastOffset sampleReader.
Proof.
  assert (E : newBlockFilterReader sampleBlob = Ret (Some sampleReader))
    by (vm_compute; reflexivity).
  split; [exact E |].
  destruct (accepted_blob_layout sampleBlob sampleReader E) as (H1 & _ & _ & _ & H5).
  split; [exact H1 | exact H5].
Defined.

(** X12 on the keys ["a"], ["b"] and ["c"] of blocks that start at 0, 100
    and 200. *)
Lemma one_window_blob_witness :
  exists f,
    run (P := FirstBytePolicy)
      [OpAddKey key_a; OpFinishBlock 100; OpAddKey key_b; OpFinishBlock 200; OpAddKey key_c]
      newBlockFilterWriter = Some (Ok f) /\
    offsets f = [] /\
    finish f = Ok [Byte.x61; Byte.x62; Byte.x63;
                   Byte.x00; Byte.x00; Byte.x00; Byte.x00;
                   Byte.x03; Byte.x00; Byte.x00; Byte.x00;
                   Byte.x0b].
Proof.
  refine (one_window_blob (P := FirstBytePolicy)
            [OpAddKey key_a; OpFinishBlock 100; OpAddKey key_b; OpFinishBlock 200; OpAddKey key_c]
            _ _).
  - repeat constructor; vm_compute; discriminate.
  - split; vm_compute; discriminate.
Defined.
